(** * git-prpush: a shallow embedding of [main.go] and its specification

    The program walks the ancestry of [HEAD] back to [main], cuts every
    path into pull-request segments at branch markers and merge commits,
    and either force-pushes or tags the first commit of each segment.

    Strings are Go strings, that is byte sequences: [string] of the
    Standard Library, whose characters are the 256 bytes.  The Go maps
    used as sets ([pushed], [ignore], and [m] of [removeStaleTags]) are
    [gset string].  Every [exec.Command] goes to an abstract backend. *)

From Stdlib Require Import Ascii String.
From stdpp Require Import base gmap sets list strings.

(** ** The part of Go's [strings] package the program calls *)

Definition isUpperASCII (c : ascii) : bool :=
  (65 <=? nat_of_ascii c) && (nat_of_ascii c <=? 90).

Definition lowerByte (c : ascii) : ascii :=
  if isUpperASCII c then ascii_of_nat (nat_of_ascii c + 32) else c.

Fixpoint mapBytes (f : ascii → ascii) (s : string) : string :=
  match s with
  | EmptyString => EmptyString
  | String c rest => String (f c) (mapBytes f rest)
  end.

(** [utf8.RuneSelf] is 0x80: bytes below it are one-byte runes. *)
Fixpoint allASCII (s : string) : bool :=
  match s with
  | EmptyString => true
  | String c rest => (nat_of_ascii c <? 128) && allASCII rest
  end.

(** [strings.ToLower] lowers an ASCII-only string byte by byte.  A string
    with a byte at or above 0x80 goes through [unicode.ToLower], whose case
    tables are not part of this repository: they are a parameter. *)
Class UnicodeTables := { unicode_ToLower : string → string }.

Definition strings_ToLower {U : UnicodeTables} (s : string) : string :=
  if allASCII s then mapBytes lowerByte s else unicode_ToLower s.

Definition strings_HasPrefix (s prefix : string) : bool := String.prefix prefix s.

Fixpoint dropBytes (n : nat) (s : string) : string :=
  match n, s with
  | 0, _ => s
  | S _, EmptyString => EmptyString
  | S n', String _ rest => dropBytes n' rest
  end.

Definition strings_TrimPrefix (s prefix : string) : string :=
  if strings_HasPrefix s prefix then dropBytes (String.length prefix) s else s.

(** [strings.Split s sep] for a one-byte separator, the only kind the
    program passes (a blank and a newline): one piece more than there are
    separators, so the empty string splits into one empty piece. *)
Fixpoint strings_Split (s : string) (sep : ascii) : list string :=
  match s with
  | EmptyString => [EmptyString]
  | String c rest =>
      if Ascii.eqb c sep then EmptyString :: strings_Split rest sep
      else match strings_Split rest sep with
           | piece :: pieces => String c piece :: pieces
           | [] => [String c EmptyString]
           end
  end.

Definition bytes (l : list nat) : string :=
  foldr (λ n s, String (ascii_of_nat n) s) EmptyString l.

(** The UTF-8 encodings of the runes for which [unicode.IsSpace] holds:
    tab to carriage return, blank, U+0085, U+00A0, U+1680, U+2000 to
    U+200A, U+2028, U+2029, U+202F, U+205F and U+3000. *)
Definition spaceRunes : list string :=
  bytes <$> ([[9]; [10]; [11]; [12]; [13]; [32]; [194; 133]; [194; 160];
             [225; 154; 128]]
             ++ ((λ n, [226; 128; n]) <$> seq 128 11)
             ++ [[226; 128; 168]; [226; 128; 169]; [226; 128; 175];
                 [226; 129; 159]; [227; 128; 128]]).

(** Drops the first of [runes] that [s] starts with. *)
Fixpoint stripRune (runes : list string) (s : string) : option string :=
  match runes with
  | [] => None
  | r :: runes' =>
      if String.prefix r s then Some (dropBytes (String.length r) s)
      else stripRune runes' s
  end.

Fixpoint trimLeft (runes : list string) (fuel : nat) (s : string) : string :=
  match fuel with
  | 0 => s
  | S fuel' =>
      match stripRune runes s with
      | Some rest => trimLeft runes fuel' rest
      | None => s
      end
  end.

(** [strings.TrimSpace]: leading white space goes first, then trailing
    white space of what is left; the trailing runes are read off the
    reversed string against the reversed encodings. *)
Definition strings_TrimSpace (s : string) : string :=
  let left := trimLeft spaceRunes (String.length s) s in
  String.rev (trimLeft (String.rev <$> spaceRunes) (String.length left) (String.rev left)).

(** ** Data model *)

Record commit := {
  sha : string;
  message : string;
  psBranch : string;
  isMerge : bool
}.

Record head := {
  head_sha : string;
  head_ref : string
}.

Definition BRANCH_PREFIX : string := "PR_BRANCH".

(** [fmt.Sprintf("%s/%s", BRANCH_PREFIX, head.ref)] *)
Definition tagName (h : head) : string :=
  BRANCH_PREFIX +:+ "/" +:+ head_ref h.

(** The [ignore] map of [shouldIgnoreRef], a set of three keys. *)
Definition ignore : gset string := {[ ""; "null"; "nil" ]}.

Definition shouldIgnoreRef {U : UnicodeTables} (ref : string) : bool :=
  bool_decide (strings_ToLower ref ∈ ignore).

(** ** Segment extraction: [findTipsOfPrs] *)

Definition hasBranch (c : commit) : bool := negb (String.eqb (psBranch c) "").

(** First loop: the indices of the commits that carry a branch or are
    merges, in path order. [i] is the index of the first of [commits]. *)
Fixpoint collectStoppers (i : nat) (commits : list commit) (stoppers : list nat)
  : list nat :=
  match commits with
  | [] => stoppers
  | c :: rest =>
      collectStoppers (S i) rest
        (if hasBranch c || isMerge c then stoppers ++ [i] else stoppers)
  end.

(** One turn of the second loop at the stopper index [k].  An index out
    of range is Go's run-time panic, [None] here. *)
Definition tipStep (commits : list commit) (acc : option (list head * nat)) (k : nat)
  : option (list head * nat) :=
  match acc with
  | None => None
  | Some (tips, last) =>
      match commits !! k with
      | None => None
      | Some c =>
          if negb (isMerge c) && hasBranch c then
            match commits !! last with
            | None => None
            | Some first =>
                Some (tips ++ [{| head_sha := sha first; head_ref := psBranch c |}], S k)
            end
          else Some (tips, S k)
      end
  end.

Definition findTipsOfPrs (commits : list commit) : option (list head) :=
  let stoppers := collectStoppers 0 commits [] in
  if length stoppers =? 0 then Some []
  else fst <$> foldl (tipStep commits) (Some ([], 0)) stoppers.

(** [findBranchTag]: the value of the first line [PR_BRANCH=...]. *)
Fixpoint firstBranchLine (lines : list string) : string :=
  match lines with
  | [] => ""
  | line :: rest =>
      if strings_HasPrefix line (BRANCH_PREFIX +:+ "=")
      then strings_TrimPrefix line (BRANCH_PREFIX +:+ "=")
      else firstBranchLine rest
  end.

Definition findBranchTag (message : string) : string :=
  firstBranchLine (strings_Split (strings_TrimSpace message) "010").

(** ** The backend and the effects of a run

    Every [exec.Command] of the program is one of five git command lines.
    The two reads leave the repository as it is; the three mutations may
    change it.  A reply carries the exit status and what the child wrote. *)

Inductive query :=
| GitShow (format ref : string)
| GitTagList.

Inductive mutation :=
| GitPush (sha ref : string)
| GitTag (name sha : string)
| GitTagDelete (name : string).

(** The argument vectors handed to [exec.Command]. *)
Definition query_argv (q : query) : list string :=
  match q with
  | GitShow format ref => ["git"; "show"; "--no-patch"; "--format=" +:+ format; ref]
  | GitTagList => ["git"; "tag"; "--list"]
  end.

Definition mutation_argv (m : mutation) : list string :=
  match m with
  | GitPush sha ref =>
      ["git"; "push"; "--force"; "origin"; sha +:+ ":refs/heads/" +:+ ref]
  | GitTag name sha => ["git"; "tag"; "--force"; name; sha]
  | GitTagDelete name => ["git"; "tag"; "--delete"; name]
  end.

Record reply := {
  ok : bool;
  stdout : string;
  stderr : string
}.

Class Backend (G : Type) := {
  ask : G → query → reply;
  apply_mutation : G → mutation → G * reply
}.

(** What a run leaves behind, in order: the calls of [fmt.Println] on a
    command, every child process with its reply, and the call of
    [log.Fatalf], named by its format string, that ends the process.  A
    child writes for itself: its standard error, and for a mutation its
    standard output too, are the descriptors of the program
    ([cmd.Stdout = os.Stdout], [cmd.Stderr = os.Stderr]). *)
Inductive event :=
| Println (m : mutation)
| RunQuery (q : query) (r : reply)
| RunMutation (m : mutation) (r : reply)
| Fatalf (format : string).

Definition mutations (t : list event) : list mutation :=
  omap (λ e, match e with RunMutation m _ => Some m | _ => None end) t.

(** What the program itself writes in a run: its calls of [fmt.Println]
    and of [log.Fatalf], without what the children write. *)
Definition written (t : list event) : list event :=
  omap (λ e, match e with
             | Println _ | Fatalf _ => Some e
             | _ => None
             end) t.

Inductive stop := ExitFatal | PanicIndex | NoFuel.

Section Program.
Context {U : UnicodeTables} {G : Type} {B : Backend G}.

(** The repository, the global [pushed] map and the events so far. *)
Record state := {
  world : G;
  pushed : gset string;
  trace : list event
}.

Inductive outcome (A : Type) :=
| Done (a : A) (s : state)
| Stopped (why : stop) (s : state).
Global Arguments Done {A} a s.
Global Arguments Stopped {A} why s.

Definition M (A : Type) : Type := state → outcome A.

Definition ret {A} (a : A) : M A := λ s, Done a s.

Definition bind {A B} (m : M A) (k : A → M B) : M B :=
  λ s, match m s with
       | Done a s' => k a s'
       | Stopped why s' => Stopped why s'
       end.

Definition emit (e : event) (s : state) : state :=
  {| world := world s; pushed := pushed s; trace := trace s ++ [e] |}.

(** [log.Fatalf]: the message goes out and the process exits. *)
Definition fatalf {A} (format : string) : M A :=
  λ s, Stopped ExitFatal (emit (Fatalf format) s).

Definition panic {A} : M A := λ s, Stopped PanicIndex s.

Definition println (m : mutation) : M unit :=
  λ s, Done tt (emit (Println m) s).

Definition runQuery (q : query) : M reply :=
  λ s, let r := ask (world s) q in Done r (emit (RunQuery q r) s).

Definition runMutation (m : mutation) : M reply :=
  λ s, let (w, r) := apply_mutation (world s) m in
       Done r {| world := w; pushed := pushed s;
                 trace := trace s ++ [RunMutation m r] |}.
End Program.

Global Arguments state G : clear implicits.
Global Arguments outcome G A : clear implicits.
Global Arguments M G A : clear implicits.

Notation "x <- m ;; k" := (bind m (λ x, k))
  (at level 100, m at next level, right associativity,
   format "'[v' x  <-  m  ;;  '/' k ']'").
Notation "m ;;; k" := (bind m (λ _, k))
  (at level 100, right associativity).

(** ** The program *)

Section Operations.
Context {U : UnicodeTables} {G : Type} {B : Backend G}.

(** A [for ... range] loop that carries the variables it assigns. *)
Fixpoint foldM {A B} (body : B → A → M G B) (b : B) (l : list A) : M G B :=
  match l with
  | [] => ret b
  | a :: rest => b' <- body b a ;; foldM body b' rest
  end.

(** The three mutations print their command line, run it, and drop the
    error of [cmd.Run]. *)
Definition pushBranch (h : head) : M G unit :=
  let cmd := GitPush (head_sha h) (head_ref h) in
  println cmd ;;; _ <- runMutation cmd ;; ret tt.

Definition tagBranch (h : head) : M G unit :=
  let cmd := GitTag (tagName h) (head_sha h) in
  println cmd ;;; _ <- runMutation cmd ;; ret tt.

Definition deleteTag (tag : string) : M G unit :=
  let cmd := GitTagDelete tag in
  println cmd ;;; _ <- runMutation cmd ;; ret tt.

Definition markPushed (id : string) : M G unit :=
  λ s, Done tt {| world := world s; pushed := {[id]} ∪ pushed s; trace := trace s |}.

(** [dfsPushes]: [f] is the callback, [x] the variable its closure
    assigns ([tags] in [tagBranches], nothing in [pushBranches]). *)
Fixpoint dfsPushes {X} (heads : list head) (f : head → X → M G X) (x : X) : M G X :=
  match heads with
  | [] => ret x
  | h :: rest =>
      λ s, if shouldIgnoreRef (head_ref h) || bool_decide (head_sha h ∈ pushed s)
           then dfsPushes rest f x s
           else (x' <- f h x ;; markPushed (head_sha h) ;;; dfsPushes rest f x') s
  end.

Definition tagBranches (heads : list head) : M G (list string) :=
  dfsPushes heads (λ h tags, tagBranch h ;;; ret (tags ++ [tagName h])) [].

Definition pushBranches (heads : list head) : M G unit :=
  dfsPushes heads (λ h _, pushBranch h) tt.

Definition listTags : M G (list string) :=
  r <- runQuery GitTagList ;;
  if ok r then ret (strings_Split (strings_TrimSpace (stdout r)) "010")
  else fatalf "Error running get sha err: %v".

Definition removeStaleTags (active : list string) : M G unit :=
  let m : gset string := foldl (λ m t, {[t]} ∪ m) ∅ active in
  tags <- listTags ;;
  foldM (λ _ tag,
           if negb (strings_HasPrefix tag BRANCH_PREFIX) then ret tt
           else if bool_decide (tag ∈ m) then ret tt
           else deleteTag tag) tt tags.

Definition getParents (ref : string) : M G (list string) :=
  r <- runQuery (GitShow "%P" ref) ;;
  if ok r then ret (strings_Split (strings_TrimSpace (stdout r)) " ")
  else fatalf "Error running get parents err: %v".

Definition getSha (ref : string) : M G string :=
  r <- runQuery (GitShow "%H" ref) ;;
  if ok r then ret (strings_TrimSpace (stdout r))
  else fatalf "Error running get sha err: %v".

Definition getMessage (id : string) : M G string :=
  r <- runQuery (GitShow "%B" id) ;;
  if ok r then ret (stdout r)
  else fatalf "Error running get message %v".

(** The [message] field is left at its zero value. *)
Definition makeCommit (id : string) : M G commit :=
  msg <- getMessage id ;;
  parents <- getParents id ;;
  ret {| sha := id; message := ""; psBranch := findBranchTag msg;
         isMerge := 1 <? length parents |}.

(** [traversePaths]: [path] and [paths] are the two slices behind the
    pointers, handed back on return.  The recursion of the source has no
    bound of its own; [fuel] bounds its depth here. *)
Fixpoint traversePaths (fuel : nat) (source target : string)
    (path : list commit) (paths : list (list commit))
  : M G (list commit * list (list commit)) :=
  match fuel with
  | 0 => λ s, Stopped NoFuel s
  | S fuel' =>
      if String.eqb source target then ret (path, paths ++ [path])
      else
        parents <- getParents source ;;
        c <- makeCommit source ;;
        acc <- foldM (λ acc p, traversePaths fuel' p target acc.1 acc.2)
                     (path ++ [c], paths) parents ;;
        match acc.1 with
        | [] => panic
        | _ => ret (take (length acc.1 - 1) acc.1, acc.2)
        end
  end.

Definition findCommitPaths (fuel : nat) (branch : string) : M G (list (list commit)) :=
  source <- getSha "HEAD" ;;
  target <- getSha branch ;;
  acc <- traversePaths fuel source target [] [] ;;
  ret acc.2.

(** [main], with the [--dry] flag as an argument. *)
Definition main (fuel : nat) (dryRunFlag : bool) : M G unit :=
  paths <- findCommitPaths fuel "main" ;;
  active <- foldM (λ active p,
              match findTipsOfPrs p with
              | None => panic
              | Some t =>
                  if dryRunFlag then tags <- tagBranches t ;; ret (active ++ tags)
                  else pushBranches t ;;; ret active
              end) [] paths ;;
  removeStaleTags active.

(** The state a process starts in. *)
Definition start (w : G) : state G := {| world := w; pushed := ∅; trace := [] |}.
End Operations.

(** ** An in-memory repository

    A small backend to run the program on: commits with their parents and
    messages, branches, tags and the branches of the remote.  A repository
    that is [frozen] refuses every mutation. *)

Record repo := {
  repo_HEAD : string;
  repo_branches : list (string * string);
  repo_commits : list (string * (list string * string));
  repo_tags : list (string * string);
  repo_remote : list (string * string);
  frozen : bool
}.

Fixpoint assoc {A} (k : string) (l : list (string * A)) : option A :=
  match l with
  | [] => None
  | (k', a) :: rest => if String.eqb k k' then Some a else assoc k rest
  end.

Definition unset {A} (k : string) (l : list (string * A)) : list (string * A) :=
  filter (λ e, e.1 ≠ k) l.

Definition resolve (w : repo) (ref : string) : option string :=
  if String.eqb ref "HEAD" then Some (repo_HEAD w)
  else match assoc ref (repo_branches w) with
       | Some id => Some id
       | None => match assoc ref (repo_commits w) with
                 | Some _ => Some ref
                 | None => None
                 end
       end.

Definition failed (why : string) : reply :=
  {| ok := false; stdout := ""; stderr := why |}.

Definition printed (text : string) : reply :=
  {| ok := true; stdout := text +:+ "
"; stderr := "" |}.

Definition repo_ask (w : repo) (q : query) : reply :=
  match q with
  | GitTagList => {| ok := true; stdout := String.concat "" ((λ t, t.1 +:+ "
") <$> repo_tags w); stderr := "" |}
  | GitShow format ref =>
      match resolve w ref with
      | None => failed "fatal: bad revision"
      | Some id =>
          match assoc id (repo_commits w) with
          | None => failed "fatal: bad object"
          | Some (parents, msg) =>
              if String.eqb format "%H" then printed id
              else if String.eqb format "%P" then printed (String.concat " " parents)
              else printed msg
          end
      end
  end.

Definition repo_apply (w : repo) (m : mutation) : repo * reply :=
  if frozen w then (w, failed "error: repository is read-only")
  else match m with
       | GitPush id ref =>
           ({| repo_HEAD := repo_HEAD w; repo_branches := repo_branches w;
               repo_commits := repo_commits w; repo_tags := repo_tags w;
               repo_remote := unset ref (repo_remote w) ++ [(ref, id)];
               frozen := frozen w |}, printed "")
       | GitTag name id =>
           ({| repo_HEAD := repo_HEAD w; repo_branches := repo_branches w;
               repo_commits := repo_commits w;
               repo_tags := unset name (repo_tags w) ++ [(name, id)];
               repo_remote := repo_remote w; frozen := frozen w |}, printed "")
       | GitTagDelete name =>
           match assoc name (repo_tags w) with
           | Some _ =>
             ({| repo_HEAD := repo_HEAD w; repo_branches := repo_branches w;
                 repo_commits := repo_commits w;
                 repo_tags := unset name (repo_tags w);
                 repo_remote := repo_remote w; frozen := frozen w |},
              printed ("Deleted tag " +:+ name))
           | None => (w, failed "error: tag not found")
           end
       end.

#[global] Instance repo_backend : Backend repo :=
  {| ask := repo_ask; apply_mutation := repo_apply |}.

(** Strings without a byte above 0x7F never reach the case tables; this
    instance leaves the others as they are. *)
Definition plain_tables : UnicodeTables := {| unicode_ToLower := λ s, s |}.

(** [HEAD] is [a]; [a]'s parent is [b], which carries [PR_BRANCH=one];
    [b]'s parent [c] is [main]. *)
Definition chain_repo : repo :=
  {| repo_HEAD := "a";
     repo_branches := [("main", "c")];
     repo_commits := [("a", (["b"], "top")); ("b", (["c"], "mid

PR_BRANCH=one")); ("c", ([], "base"))];
     repo_tags := [("v1", "c"); ("PR_BRANCH/old", "c"); ("PR_BRANCHES", "c")];
     repo_remote := [];
     frozen := false |}.


(** The same repository, refusing every mutation. *)
Definition frozen_repo : repo :=
  {| repo_HEAD := repo_HEAD chain_repo; repo_branches := repo_branches chain_repo;
     repo_commits := repo_commits chain_repo; repo_tags := repo_tags chain_repo;
     repo_remote := repo_remote chain_repo; frozen := true |}.

(** [HEAD] is the merge [m] of [x] and [y], both children of [t], which
    is [main]. *)
Definition diamond_repo : repo :=
  {| repo_HEAD := "m";
     repo_branches := [("main", "t")];
     repo_commits := [("m", (["x"; "y"], "merge")); ("x", (["t"], "PR_BRANCH=left"));
                      ("y", (["t"], "PR_BRANCH=right")); ("t", ([], "base"))];
     repo_tags := [];
     repo_remote := [];
     frozen := false |}.

Definition diamond_paths : list (list commit) :=
  [ [ {| sha := "m"; message := ""; psBranch := ""; isMerge := true |};
      {| sha := "x"; message := ""; psBranch := "left"; isMerge := false |} ];
    [ {| sha := "m"; message := ""; psBranch := ""; isMerge := true |};
      {| sha := "y"; message := ""; psBranch := "right"; isMerge := false |} ] ].

(** The commits of [chain_repo] in a repository that has no branch
    [main]: its one branch is [master]. *)
Definition no_main_repo : repo :=
  {| repo_HEAD := "a";
     repo_branches := [("master", "c")];
     repo_commits := repo_commits chain_repo;
     repo_tags := [("PR_BRANCH/old", "c")];
     repo_remote := [];
     frozen := false |}.

(** [findBranchTags] writes the branch read off each message into the
    commit, in place, and hands the same slice back. *)
Definition findBranchTags (commits : list commit) : list commit :=
  (λ c, {| sha := sha c; message := message c;
           psBranch := findBranchTag (message c); isMerge := isMerge c |})
    <$> commits.

(** [HEAD] is [a], on top of [b] and the root [c]; [main] is the
    unrelated root [z]. *)
Definition detached_repo : repo :=
  {| repo_HEAD := "a";
     repo_branches := [("main", "z")];
     repo_commits := [("a", (["b"], "top")); ("b", (["c"], "PR_BRANCH=one"));
                      ("c", ([], "base")); ("z", ([], "other"))];
     repo_tags := [];
     repo_remote := [];
     frozen := false |}.

(** A repository whose tags cannot be listed. *)
Record unlisted := { listed_repo : repo }.

#[global] Instance unlisted_backend : Backend unlisted :=
  {| ask := λ w q, match q with
                   | GitTagList => failed "fatal: cannot list tags"
                   | _ => repo_ask (listed_repo w) q
                   end;
     apply_mutation := λ w m, let (w', r) := repo_apply (listed_repo w) m in
                              ({| listed_repo := w' |}, r) |}.

(** ** Specification-side definitions *)

(** Segment extraction in one pass: [start] is the first commit of the
    window that is open, if one is. *)
Fixpoint scanTips (start : option string) (commits : list commit) : list head :=
  match commits with
  | [] => []
  | c :: rest =>
      let first := default (sha c) start in
      if hasBranch c || isMerge c then
        (if negb (isMerge c) && hasBranch c
         then [{| head_sha := first; head_ref := psBranch c |}] else [])
        ++ scanTips None rest
      else scanTips (Some first) rest
  end.

Fixpoint stopperIndices (i : nat) (commits : list commit) : list nat :=
  match commits with
  | [] => []
  | c :: rest =>
      (if hasBranch c || isMerge c then [i] else []) ++ stopperIndices (S i) rest
  end.

(** [a] and [b] are equal up to the case of the letters A to Z. *)
Definition equalFoldASCII (a b : string) : bool :=
  String.eqb (mapBytes lowerByte a) (mapBytes lowerByte b).

(** A ref that is empty, [null] or [nil] in any mix of cases. *)
Definition ignorable (ref : string) : Prop :=
  equalFoldASCII ref "" = true ∨ equalFoldASCII ref "null" = true
  ∨ equalFoldASCII ref "nil" = true.

Definition final {G A} (o : outcome G A) : state G :=
  match o with
  | Done _ s => s
  | Stopped _ s => s
  end.

(** The byte [c] occurs in [s]. *)
Fixpoint hasByte (c : ascii) (s : string) : bool :=
  match s with
  | EmptyString => false
  | String c' rest => Ascii.eqb c' c || hasByte c rest
  end.

Definition newline : string := String "010" EmptyString.

(** A commit that ends a window: it carries a branch or is a merge. *)
Definition stopper (c : commit) : Prop := psBranch c ≠ "" ∨ isMerge c = true.

(** An outcome of the program itself, not of the bound on the recursion. *)
Definition ends {G A} (o : outcome G A) : Prop :=
  match o with
  | Stopped NoFuel _ => False
  | _ => True
  end.

(** Which commit a publishing command is for. *)
Definition publishes (id : string) (m : mutation) : bool :=
  match m with
  | GitPush sha _ => String.eqb sha id
  | GitTag _ sha => String.eqb sha id
  | GitTagDelete _ => false
  end.

Definition pushCommand (h : head) : mutation := GitPush (head_sha h) (head_ref h).
Definition tagCommand (h : head) : mutation := GitTag (tagName h) (head_sha h).

(** The lines of a tag listing, as [listTags] cuts them. *)
Definition listedTags (r : reply) : list string :=
  strings_Split (strings_TrimSpace (stdout r)) "010".

(** The tags [removeStaleTags] deletes out of a listing. *)
Definition staleTags (active tags : list string) : list string :=
  filter (λ tag, strings_HasPrefix tag "PR_BRANCH" = true ∧ tag ∉ active) tags.

(** The heads of all paths, in path-list order. *)
Definition allHeads (paths : list (list commit)) : list head :=
  mjoin (scanTips None <$> paths).

Section Specification.
Context {U : UnicodeTables} {G : Type} {B : Backend G}.

(** The heads [dfsPushes] calls back for, given the [pushed] set it
    starts from. *)
Fixpoint survivors (seen : gset string) (heads : list head) : list head :=
  match heads with
  | [] => []
  | h :: rest =>
      if shouldIgnoreRef (head_ref h) || bool_decide (head_sha h ∈ seen)
      then survivors seen rest
      else h :: survivors ({[head_sha h]} ∪ seen) rest
  end.

Definition marked (seen : gset string) (heads : list head) : gset string :=
  foldl (λ seen h, {[head_sha h]} ∪ seen) seen heads.

(** The state after one head is published with the command [mk h]. *)
Definition publish1 (mk : head → mutation) (s : state G) (h : head) : state G :=
  let (w, r) := apply_mutation (world s) (mk h) in
  {| world := w; pushed := {[head_sha h]} ∪ pushed s;
     trace := trace s ++ [Println (mk h); RunMutation (mk h) r] |}.

(** The state after one mutation is attempted: its command line is
    printed, the backend answers, and the answer is kept by nobody. *)
Definition attempt (cmd : mutation) (s : state G) : state G :=
  let (w, r) := apply_mutation (world s) cmd in
  {| world := w; pushed := pushed s;
     trace := trace s ++ [Println cmd; RunMutation cmd r] |}.

(** The state after one tag is deleted. *)
Definition delete1 (s : state G) (tag : string) : state G :=
  let (w, r) := apply_mutation (world s) (GitTagDelete tag) in
  {| world := w; pushed := pushed s;
     trace := trace s ++ [Println (GitTagDelete tag); RunMutation (GitTagDelete tag) r] |}.

(** A computation that only reads: whatever its outcome, the
    repository, [pushed] and the mutations so far are as before. *)
Definition quiet {A} (m : M G A) : Prop :=
  ∀ s, world (final (m s)) = world s ∧ pushed (final (m s)) = pushed s
       ∧ mutations (trace (final (m s))) = mutations (trace s).

(** No read so far has failed. *)
Definition clean (t : list event) : Prop :=
  ∀ q r, RunQuery q r ∈ t → ok r = true.

(** A computation that does not survive a failed read: started after
    reads that all succeeded, either it leaves only successful reads
    behind, or it has exited with [log.Fatalf] right after the one read
    that failed. *)
Definition strict {A} (m : M G A) : Prop :=
  ∀ s, clean (trace s) →
       match m s with
       | Done _ s' => clean (trace s')
       | Stopped why s' =>
           (why ≠ ExitFatal ∧ clean (trace s'))
           ∨ (why = ExitFatal ∧
              ∃ t q r format, trace s' = t ++ [RunQuery q r; Fatalf format]
                              ∧ ok r = false ∧ clean t)
       end.

(** A computation that has written nothing when it returns. *)
Definition hushed {A} (m : M G A) : Prop :=
  ∀ s a s', m s = Done a s' → written (trace s') = written (trace s).

(** What the history reads answer in the repository [w]. *)
Definition shaOf (w : G) (ref : string) : option string :=
  let r := ask w (GitShow "%H" ref) in
  if ok r then Some (strings_TrimSpace (stdout r)) else None.

Definition parentsOf (w : G) (ref : string) : option (list string) :=
  let r := ask w (GitShow "%P" ref) in
  if ok r then Some (strings_Split (strings_TrimSpace (stdout r)) " ") else None.

Definition commitOf (w : G) (id : string) : option commit :=
  let r := ask w (GitShow "%B" id) in
  if ok r then
    match parentsOf w id with
    | Some parents =>
        Some {| sha := id; message := ""; psBranch := findBranchTag (stdout r);
                isMerge := 1 <? length parents |}
    | None => None
    end
  else None.

(** [path] starts with the commit [source], goes on parent by parent,
    and stops at a commit with [target] among its parents, without
    passing through [target]; it is empty when [source] is [target]. *)
Fixpoint linked (w : G) (source target : string) (path : list commit) : Prop :=
  match path with
  | [] => source = target
  | c :: rest =>
      source ≠ target ∧ commitOf w source = Some c ∧
      ∃ parents next, parentsOf w source = Some parents ∧ next ∈ parents ∧
                      linked w next target rest
  end.

(** [path] is a linked path along which every commit has one parent. *)
Fixpoint lineage (w : G) (source target : string) (path : list commit) : Prop :=
  match path with
  | [] => source = target
  | c :: rest =>
      source ≠ target ∧ commitOf w source = Some c ∧
      ∃ next, parentsOf w source = Some [next] ∧ lineage w next target rest
  end.
End Specification.

(** * Segment extraction *)

Lemma collectStoppers_indices commits : ∀ i stoppers,
  collectStoppers i commits stoppers = stoppers ++ stopperIndices i commits.
Proof.
  induction commits as [|c rest IH]; intros i stoppers; simpl.
  - by rewrite app_nil_r.
  - rewrite IH. destruct (hasBranch c || isMerge c); simpl.
    + by rewrite <- app_assoc.
    + done.
Qed.

Lemma tipStep_fold suffix : ∀ before tips last,
  last ≤ length before →
  fst <$> foldl (tipStep (before ++ suffix)) (Some (tips, last))
               (stopperIndices (length before) suffix)
  = Some (tips ++ scanTips (sha <$> before !! last) suffix).
Proof.
  induction suffix as [|c rest IH]; intros before tips last Hlast; simpl.
  - by rewrite app_nil_r.
  - assert (Hc : (before ++ c :: rest) !! length before = Some c)
      by (by rewrite list_lookup_middle).
    assert (Hnext : length (before ++ [c]) = S (length before))
      by (rewrite length_app; simpl; lia).
    assert (Hfirst : sha <$> (before ++ c :: rest) !! last
                     = Some (default (sha c) (sha <$> before !! last))).
    { destruct (decide (last = length before)) as [->|Hne].
      - rewrite Hc. by rewrite lookup_ge_None_2.
      - destruct (lookup_lt_is_Some_2 before last) as [x Hx]; [lia|].
        rewrite lookup_app_l by lia. by rewrite Hx. }
    destruct (hasBranch c || isMerge c) eqn:Hstop; simpl.
    + rewrite Hc.
      specialize (IH (before ++ [c]) ).
      rewrite <- app_assoc in IH; simpl in IH. rewrite Hnext in IH.
      destruct (negb (isMerge c) && hasBranch c) eqn:Hemit.
      * destruct ((before ++ c :: rest) !! last) as [x|] eqn:Hx; [|done].
        simpl in Hfirst. injection Hfirst as Hfirst.
        rewrite IH by lia.
        rewrite lookup_ge_None_2 by lia. simpl.
        rewrite Hfirst. by rewrite <- app_assoc.
      * rewrite IH by lia.
        rewrite lookup_ge_None_2 by lia. done.
    + specialize (IH (before ++ [c]) tips last).
      rewrite <- app_assoc in IH; simpl in IH. rewrite Hnext in IH.
      rewrite IH by lia. do 2 f_equal.
      destruct (decide (last = length before)) as [->|Hne].
      * rewrite list_lookup_middle by done.
        by rewrite lookup_ge_None_2.
      * destruct (lookup_lt_is_Some_2 before last) as [x Hx]; [lia|].
        rewrite lookup_app_l by lia. by rewrite Hx.
Qed.

(** The two loops over indices never leave the slice, and compute the
    one-pass scan. *)
Lemma findTipsOfPrs_scan commits :
  findTipsOfPrs commits = Some (scanTips None commits).
Proof.
  unfold findTipsOfPrs. rewrite collectStoppers_indices. simpl.
  pose proof (tipStep_fold commits [] [] 0 (Nat.le_refl 0)) as Hfold.
  simpl in Hfold.
  destruct (stopperIndices 0 commits) as [|k ks] eqn:Hks; simpl.
  - simpl in Hfold. done.
  - exact Hfold.
Qed.

Lemma scanTips_merge before : ∀ start m after,
  isMerge m = true →
  scanTips start (before ++ m :: after)
  = scanTips start before ++ scanTips None after.
Proof.
  induction before as [|c rest IH]; intros start m after Hm; simpl.
  - rewrite Hm. by rewrite orb_true_r.
  - destruct (hasBranch c || isMerge c).
    + rewrite (IH None m after Hm). by rewrite app_assoc.
    + by apply IH.
Qed.

(** C5: on the path [c1 (branch A); c2; c3 (branch B)] without merges,
    nearest the source first, [findTipsOfPrs] returns exactly the heads
    (c1, A) and (c2, B): the second head's commit is c2, where B's window
    starts, not c3, which carries the marker. *)
Theorem C5_linear_chain_tips (c1 c2 c3 m1 m2 m3 A B : string) :
  A ≠ "" → B ≠ "" →
  findTipsOfPrs
    [ {| sha := c1; message := m1; psBranch := A; isMerge := false |};
      {| sha := c2; message := m2; psBranch := ""; isMerge := false |};
      {| sha := c3; message := m3; psBranch := B; isMerge := false |} ]
  = Some [ {| head_sha := c1; head_ref := A |};
           {| head_sha := c2; head_ref := B |} ].
Proof.
  intros HA HB. rewrite findTipsOfPrs_scan.
  unfold scanTips, hasBranch; simpl.
  destruct (String.eqb_spec A ""); [done|].
  destruct (String.eqb_spec B ""); [done|].
  reflexivity.
Qed.

Lemma C5_linear_chain_tips_witness :
  findTipsOfPrs
    [ {| sha := "c1"; message := "one"; psBranch := "A"; isMerge := false |};
      {| sha := "c2"; message := "two"; psBranch := ""; isMerge := false |};
      {| sha := "c3"; message := "three"; psBranch := "B"; isMerge := false |} ]
  = Some [ {| head_sha := "c1"; head_ref := "A" |};
           {| head_sha := "c2"; head_ref := "B" |} ].
Proof.
  apply (C5_linear_chain_tips "c1" "c2" "c3" "one" "two" "three" "A" "B");
    discriminate.
Defined.

(** C6: a merge commit without a branch is a silent boundary.  On the
    path [c1 (branch A); c2 (merge); c3 (branch B)], [findTipsOfPrs]
    returns exactly the heads (c1, A) and (c3, B): c2 is no head's commit
    and is not counted into B's window. *)
Theorem C6_merge_is_boundary (c1 c2 c3 m1 m2 m3 A B : string) :
  A ≠ "" → B ≠ "" →
  findTipsOfPrs
    [ {| sha := c1; message := m1; psBranch := A; isMerge := false |};
      {| sha := c2; message := m2; psBranch := ""; isMerge := true |};
      {| sha := c3; message := m3; psBranch := B; isMerge := false |} ]
  = Some [ {| head_sha := c1; head_ref := A |};
           {| head_sha := c3; head_ref := B |} ].
Proof.
  intros HA HB. rewrite findTipsOfPrs_scan.
  unfold scanTips, hasBranch; simpl.
  destruct (String.eqb_spec A ""); [done|].
  destruct (String.eqb_spec B ""); [done|].
  reflexivity.
Qed.

Lemma C6_merge_is_boundary_witness :
  findTipsOfPrs
    [ {| sha := "c1"; message := "one"; psBranch := "A"; isMerge := false |};
      {| sha := "c2"; message := "merge"; psBranch := ""; isMerge := true |};
      {| sha := "c3"; message := "three"; psBranch := "B"; isMerge := false |} ]
  = Some [ {| head_sha := "c1"; head_ref := "A" |};
           {| head_sha := "c3"; head_ref := "B" |} ].
Proof.
  apply (C6_merge_is_boundary "c1" "c2" "c3" "one" "merge" "three" "A" "B");
    discriminate.
Defined.

(** C7: a merge commit never produces a head, whatever its message
    carries, and still ends the window that is open.  For every path with
    a merge commit [m] in it, the heads are those of the commits before
    [m] followed by those of the commits after [m], each part taken on its
    own: [m] adds no head, the commits before it that no stopper closed
    add none, and the part after [m] starts a fresh window.  The branch of
    [m] is arbitrary. *)
Theorem C7_merge_never_emits (before after : list commit) (m : commit) :
  isMerge m = true →
  ∃ tips1 tips2,
    findTipsOfPrs before = Some tips1 ∧
    findTipsOfPrs after = Some tips2 ∧
    findTipsOfPrs (before ++ m :: after) = Some (tips1 ++ tips2).
Proof.
  intros Hm. exists (scanTips None before), (scanTips None after).
  rewrite !findTipsOfPrs_scan. by rewrite (scanTips_merge before None m after Hm).
Qed.

Lemma C7_merge_never_emits_witness :
  ∃ tips1 tips2,
    findTipsOfPrs
      [ {| sha := "c1"; message := ""; psBranch := ""; isMerge := false |} ]
    = Some tips1 ∧
    findTipsOfPrs
      [ {| sha := "c3"; message := ""; psBranch := "B"; isMerge := false |} ]
    = Some tips2 ∧
    findTipsOfPrs
      ([ {| sha := "c1"; message := ""; psBranch := ""; isMerge := false |} ]
       ++ {| sha := "c2"; message := ""; psBranch := "X"; isMerge := true |}
       :: [ {| sha := "c3"; message := ""; psBranch := "B"; isMerge := false |} ])
    = Some (tips1 ++ tips2).
Proof.
  apply (C7_merge_never_emits
           [ {| sha := "c1"; message := ""; psBranch := ""; isMerge := false |} ]
           [ {| sha := "c3"; message := ""; psBranch := "B"; isMerge := false |} ]
           {| sha := "c2"; message := ""; psBranch := "X"; isMerge := true |}).
  reflexivity.
Defined.

(** * The publisher *)

Section Publisher.
Context {U : UnicodeTables} {G : Type} {B : Backend G}.

Lemma mutations_app (t1 t2 : list event) :
  mutations (t1 ++ t2) = mutations t1 ++ mutations t2.
Proof. apply omap_app. Qed.

(** [dfsPushes] with a callback that prints and runs [mk h] is a fold
    of [publish1] over the surviving heads. *)
Lemma dfsPushes_run {X} (mk : head → mutation) (g : X → head → X)
    (f : head → X → M G X) :
  (∀ {Y} h x (k : X → M G Y) s,
      (x' <- f h x ;; markPushed (head_sha h) ;;; k x') s
      = k (g x h) (publish1 mk s h)) →
  ∀ heads x s,
    dfsPushes heads f x s
    = Done (foldl g x (survivors (pushed s) heads))
           (foldl (publish1 mk) s (survivors (pushed s) heads)).
Proof.
  intros Hf heads. induction heads as [|h rest IH]; intros x s; simpl.
  - done.
  - destruct (shouldIgnoreRef (head_ref h) || bool_decide (head_sha h ∈ pushed s)).
    + apply IH.
    + rewrite Hf. rewrite IH. simpl.
      assert (Hp : pushed (publish1 mk s h) = {[head_sha h]} ∪ pushed s).
      { unfold publish1. by destruct (apply_mutation (world s) (mk h)). }
      by rewrite Hp.
Qed.

Lemma pushBranches_run heads s :
  pushBranches heads s
  = Done tt (foldl (publish1 pushCommand) s (survivors (pushed s) heads)).
Proof.
  unfold pushBranches.
  rewrite (dfsPushes_run pushCommand (λ _ _, tt)).
  - f_equal. by destruct (foldl _ _ _).
  - intros Y h x k s0.
    cbv [bind pushBranch println runMutation markPushed publish1 pushCommand
         emit ret world pushed trace].
    destruct (apply_mutation _ _); simpl.
    by rewrite <- app_assoc.
Qed.

Lemma tagBranches_run heads s :
  tagBranches heads s
  = Done (tagName <$> survivors (pushed s) heads)
         (foldl (publish1 tagCommand) s (survivors (pushed s) heads)).
Proof.
  unfold tagBranches.
  rewrite (dfsPushes_run tagCommand (λ tags h, tags ++ [tagName h])).
  - f_equal. generalize (survivors (pushed s) heads) as l.
    assert (Hg : ∀ (l : list head) acc,
               foldl (λ tags h, tags ++ [tagName h]) acc l = acc ++ (tagName <$> l)).
    { induction l as [|h l IH]; intros acc; simpl.
      - by rewrite app_nil_r.
      - rewrite IH. by rewrite <- app_assoc. }
    intros l. by rewrite Hg.
  - intros Y h x k s0.
    cbv [bind tagBranch println runMutation markPushed publish1 tagCommand
         emit ret world pushed trace].
    destruct (apply_mutation _ _); simpl.
    by rewrite <- app_assoc.
Qed.

(** *** The state after a fold of [publish1] *)

Lemma publish_pushed mk (l : list head) : ∀ s,
  pushed (foldl (publish1 mk) s l) = marked (pushed s) l.
Proof.
  induction l as [|h l IH]; intros s; simpl; [done|].
  rewrite IH. unfold publish1. by destruct (apply_mutation (world s) (mk h)).
Qed.

Lemma publish_mutations mk (l : list head) : ∀ s,
  mutations (trace (foldl (publish1 mk) s l)) = mutations (trace s) ++ (mk <$> l).
Proof.
  induction l as [|h l IH]; intros s; simpl.
  - by rewrite app_nil_r.
  - rewrite IH. unfold publish1. destruct (apply_mutation (world s) (mk h)); simpl.
    rewrite mutations_app. simpl. by rewrite <- app_assoc.
Qed.

Lemma elem_of_marked (l : list head) : ∀ (seen : gset string) id,
  id ∈ marked seen l ↔ id ∈ seen ∨ ∃ h, h ∈ l ∧ head_sha h = id.
Proof.
  induction l as [|h l IH]; intros seen id; simpl.
  - split; [by left|]. intros [?|(h & Hh & _)]; [done|]. by apply elem_of_nil in Hh.
  - unfold marked in *. simpl. rewrite IH. split.
    + intros [Hin|(h' & Hh' & Heq)].
      * apply elem_of_union in Hin as [Hin|Hin].
        -- apply elem_of_singleton in Hin. right. exists h. split; [left|done].
        -- by left.
      * right. exists h'. split; [by right|done].
    + intros [Hin|(h' & Hh' & Heq)].
      * left. apply elem_of_union. by right.
      * apply elem_of_cons in Hh' as [->|Hh'].
        -- left. apply elem_of_union. left. by apply elem_of_singleton.
        -- right. by exists h'.
Qed.

(** *** The surviving heads *)

Lemma survivors_app (l1 : list head) : ∀ (seen : gset string) l2,
  survivors seen (l1 ++ l2)
  = survivors seen l1 ++ survivors (marked seen (survivors seen l1)) l2.
Proof.
  induction l1 as [|h l1 IH]; intros seen l2; simpl; [done|].
  destruct (shouldIgnoreRef (head_ref h) || bool_decide (head_sha h ∈ seen)).
  - apply IH.
  - simpl. by rewrite IH.
Qed.

Lemma survivors_sound (l : list head) : ∀ (seen : gset string) h,
  h ∈ survivors seen l →
  h ∈ l ∧ shouldIgnoreRef (head_ref h) = false ∧ head_sha h ∉ seen.
Proof.
  induction l as [|h0 l IH]; intros seen h Hin; simpl in Hin.
  - by apply elem_of_nil in Hin.
  - destruct (shouldIgnoreRef (head_ref h0)) eqn:Hig; simpl in Hin.
    + destruct (IH _ _ Hin) as (? & ? & ?). split; [by right|done].
    + destruct (bool_decide (head_sha h0 ∈ seen)) eqn:Hd.
      * destruct (IH _ _ Hin) as (? & ? & ?). split; [by right|done].
      * apply bool_decide_eq_false in Hd.
        apply elem_of_cons in Hin as [->|Hin].
        -- split; [by left|done].
        -- destruct (IH _ _ Hin) as (? & ? & Hn). split; [by right|].
           split; [done|]. intros Hs. apply Hn, elem_of_union. by right.
Qed.

Lemma survivors_fresh (l : list head) : ∀ (seen : gset string) h,
  h ∈ survivors seen l → head_sha h ∉ seen.
Proof. intros seen h Hin. by apply survivors_sound in Hin as (_ & _ & ?). Qed.

Lemma survivors_NoDup (l : list head) : ∀ (seen : gset string),
  NoDup (head_sha <$> survivors seen l).
Proof.
  induction l as [|h l IH]; intros seen; simpl; [constructor|].
  destruct (shouldIgnoreRef (head_ref h) || bool_decide (head_sha h ∈ seen)).
  - apply IH.
  - simpl. constructor; [|apply IH].
    intros Hin. apply list_elem_of_fmap in Hin as (h' & Heq & Hin).
    apply survivors_fresh in Hin. rewrite <- Heq in Hin.
    apply Hin, elem_of_union. left. by apply elem_of_singleton.
Qed.

(** A head that [dfsPushes] skips can be taken out of the list. *)
Lemma survivors_skip (l1 : list head) : ∀ (seen : gset string) h l2,
  shouldIgnoreRef (head_ref h) = true ∨ head_sha h ∈ marked seen (survivors seen l1) →
  survivors seen (l1 ++ h :: l2) = survivors seen (l1 ++ l2).
Proof.
  intros seen h l2 Hskip. rewrite !survivors_app. f_equal. simpl.
  destruct Hskip as [->|Hin]; [done|].
  rewrite (bool_decide_eq_true_2 _ Hin). by rewrite orb_true_r.
Qed.
End Publisher.

(** * Reading the history *)

Section Reads.
Context {U : UnicodeTables} {G : Type} {B : Backend G}.

Lemma bind_Done {X Y} (m : M G X) (k : X → M G Y) s y s' :
  (x <- m ;; k x) s = Done y s' →
  ∃ x s1, m s = Done x s1 ∧ k x s1 = Done y s'.
Proof.
  unfold bind. destruct (m s) as [x s1|why s1]; [|done].
  intros Hk. by exists x, s1.
Qed.

Lemma quiet_ret {X} (x : X) : quiet (ret x : M G X).
Proof. by intros s. Qed.

Lemma quiet_bind {X Y} (m : M G X) (k : X → M G Y) :
  quiet m → (∀ x, quiet (k x)) → quiet (x <- m ;; k x).
Proof.
  intros Hm Hk s. unfold bind. specialize (Hm s).
  destruct (m s) as [x s1|why s1]; simpl in Hm.
  - destruct (Hk x s1) as (Hw & Hp & Ht).
    destruct Hm as (Hw1 & Hp1 & Ht1). by rewrite Hw, Hp, Ht.
  - exact Hm.
Qed.

Lemma quiet_runQuery q : quiet (runQuery q : M G reply).
Proof.
  intros s. unfold runQuery, emit; simpl. repeat split.
  rewrite mutations_app. simpl. by rewrite app_nil_r.
Qed.

Lemma quiet_fatalf {X} format : quiet (fatalf format : M G X).
Proof.
  intros s. unfold fatalf, emit; simpl. repeat split.
  rewrite mutations_app. simpl. by rewrite app_nil_r.
Qed.

Lemma quiet_panic {X} : quiet (panic : M G X).
Proof. by intros s. Qed.

Lemma quiet_foldM {X Y} (body : Y → X → M G Y) (l : list X) :
  (∀ y x, quiet (body y x)) → ∀ y, quiet (foldM body y l).
Proof.
  intros Hbody. induction l as [|x l IH]; intros y; simpl.
  - apply quiet_ret.
  - apply quiet_bind; [apply Hbody|apply IH].
Qed.

Lemma quiet_getParents ref : quiet (getParents ref : M G _).
Proof.
  apply quiet_bind; [apply quiet_runQuery|].
  intros r. destruct (ok r); [apply quiet_ret|apply quiet_fatalf].
Qed.

Lemma quiet_getSha ref : quiet (getSha ref : M G _).
Proof.
  apply quiet_bind; [apply quiet_runQuery|].
  intros r. destruct (ok r); [apply quiet_ret|apply quiet_fatalf].
Qed.

Lemma quiet_getMessage id : quiet (getMessage id : M G _).
Proof.
  apply quiet_bind; [apply quiet_runQuery|].
  intros r. destruct (ok r); [apply quiet_ret|apply quiet_fatalf].
Qed.

Lemma quiet_listTags : quiet (listTags : M G _).
Proof.
  apply quiet_bind; [apply quiet_runQuery|].
  intros r. destruct (ok r); [apply quiet_ret|apply quiet_fatalf].
Qed.

Lemma quiet_makeCommit id : quiet (makeCommit id : M G _).
Proof.
  apply quiet_bind; [apply quiet_getMessage|]. intros msg.
  apply quiet_bind; [apply quiet_getParents|]. intros parents.
  apply quiet_ret.
Qed.

Lemma quiet_traversePaths fuel : ∀ source target path paths,
  quiet (traversePaths fuel source target path paths : M G _).
Proof.
  induction fuel as [|fuel IH]; intros source target path paths; simpl.
  - by intros s.
  - destruct (String.eqb source target); [apply quiet_ret|].
    apply quiet_bind; [apply quiet_getParents|]. intros parents.
    apply quiet_bind; [apply quiet_makeCommit|]. intros c.
    apply quiet_bind.
    + apply quiet_foldM. intros acc p. apply IH.
    + intros acc. destruct (acc.1); [apply quiet_panic|apply quiet_ret].
Qed.

Lemma quiet_findCommitPaths fuel branch :
  quiet (findCommitPaths fuel branch : M G _).
Proof.
  apply quiet_bind; [apply quiet_getSha|]. intros source.
  apply quiet_bind; [apply quiet_getSha|]. intros target.
  apply quiet_bind; [apply quiet_traversePaths|]. intros acc.
  apply quiet_ret.
Qed.

Lemma quiet_world {X} (m : M G X) s x s' :
  quiet m → m s = Done x s' → world s' = world s.
Proof. intros Hm Hs. specialize (Hm s). rewrite Hs in Hm. apply Hm. Qed.

(** *** What the reads return *)

Lemma getParents_Done ref s parents s' :
  getParents ref s = Done parents s' →
  parentsOf (world s) ref = Some parents.
Proof.
  unfold getParents, parentsOf, bind, runQuery; simpl.
  destruct (ok (ask (world s) (GitShow "%P" ref))); [|done].
  unfold ret. by intros [= <- _].
Qed.

Lemma getSha_Done ref s id s' :
  getSha ref s = Done id s' → shaOf (world s) ref = Some id.
Proof.
  unfold getSha, shaOf, bind, runQuery; simpl.
  destruct (ok (ask (world s) (GitShow "%H" ref))); [|done].
  unfold ret. by intros [= <- _].
Qed.

Lemma makeCommit_Done id s c s' :
  makeCommit id s = Done c s' → commitOf (world s) id = Some c.
Proof.
  intros Hc. unfold makeCommit in Hc.
  apply bind_Done in Hc as (msg & s1 & Hmsg & Hc).
  apply bind_Done in Hc as (parents & s2 & Hparents & Hc).
  pose proof (quiet_world _ _ _ _ (quiet_getMessage id) Hmsg) as Hw.
  apply getParents_Done in Hparents. rewrite Hw in Hparents.
  unfold commitOf. rewrite Hparents.
  unfold getMessage, bind, runQuery in Hmsg; simpl in Hmsg.
  destruct (ok (ask (world s) (GitShow "%B" id))); [|done].
  unfold ret in Hmsg, Hc. injection Hmsg as <- _. by injection Hc as <- _.
Qed.

(** Every path [traversePaths] records is the path it was handed,
    followed by a linked path from [source] to [target]; the slice
    [path] comes back as it went in. *)
Lemma traversePaths_sound fuel : ∀ source target path paths s acc s',
  traversePaths fuel source target path paths s = Done acc s' →
  acc.1 = path ∧
  ∃ new, acc.2 = paths ++ new ∧
         ∀ q, q ∈ new → ∃ rest, q = path ++ rest ∧ linked (world s) source target rest.
Proof.
  induction fuel as [|fuel IH]; intros source target path paths s acc s' Hrun;
    simpl in Hrun; [done|].
  destruct (String.eqb_spec source target) as [->|Hne].
  - unfold ret in Hrun. injection Hrun as <- _. simpl. split; [done|].
    exists [path]. split; [done|]. intros q Hq.
    apply list_elem_of_singleton in Hq as ->. exists []. by rewrite app_nil_r.
  - apply bind_Done in Hrun as (parents & s1 & Hparents & Hrun).
    apply bind_Done in Hrun as (c & s2 & Hc & Hrun).
    apply bind_Done in Hrun as (acc2 & s3 & Hloop & Hrun).
    pose proof (quiet_world _ _ _ _ (quiet_getParents source) Hparents) as Hw1.
    pose proof (quiet_world _ _ _ _ (quiet_makeCommit source) Hc) as Hw2.
    apply getParents_Done in Hparents.
    apply makeCommit_Done in Hc. rewrite Hw1 in Hc. rewrite Hw1 in Hw2.
    assert (Hinner : ∀ ps acc0 s0 acc1 s1',
      (∀ p, p ∈ ps → p ∈ parents) → world s0 = world s →
      foldM (λ acc p, traversePaths fuel p target acc.1 acc.2) acc0 ps s0
      = Done acc1 s1' →
      acc1.1 = acc0.1 ∧
      ∃ new, acc1.2 = acc0.2 ++ new ∧
             ∀ q, q ∈ new → ∃ p rest, p ∈ parents ∧ q = acc0.1 ++ rest
                                      ∧ linked (world s) p target rest).
    { clear Hloop Hrun. induction ps as [|p ps IHps];
        intros acc0 s0 acc1 s1' Hsub Hw0 Hfold; simpl in Hfold.
      - unfold ret in Hfold. injection Hfold as <- _. split; [done|].
        exists []. rewrite app_nil_r. split; [done|].
        intros q Hq. by apply elem_of_nil in Hq.
      - apply bind_Done in Hfold as (mid & sm & Hfirst & Hfold).
        pose proof (quiet_world _ _ _ _ (quiet_traversePaths _ _ _ _ _) Hfirst) as Hwm.
        apply IH in Hfirst as (Hpath & new1 & Hnew1 & Hq1).
        apply IHps in Hfold as (Hpath2 & new2 & Hnew2 & Hq2);
          [|intros p' Hp'; apply Hsub; by right|by rewrite Hwm].
        split; [by rewrite Hpath2|].
        exists (new1 ++ new2). split.
        { rewrite Hnew2, Hnew1. by rewrite app_assoc. }
        intros q Hq. apply elem_of_app in Hq as [Hq|Hq].
        + destruct (Hq1 q Hq) as (rest & -> & Hlinked).
          exists p, rest. split; [apply Hsub; by left|].
          split; [done|]. by rewrite Hw0 in Hlinked.
        + destruct (Hq2 q Hq) as (p' & rest & Hp' & -> & Hlinked).
          exists p', rest. by rewrite Hpath. }
    apply Hinner in Hloop as (Hpath & new & Hnew & Hq); [|done|done].
    simpl in Hpath, Hnew. rewrite Hpath in Hrun.
    assert (Hret : ret (take (length (path ++ [c]) - 1) (path ++ [c]), acc2.2) s3
                   = Done acc s') by (by destruct path).
    clear Hrun. unfold ret in Hret. injection Hret as <- _. simpl.
    split.
    { rewrite length_app. simpl.
      replace (length path + 1 - 1) with (length path) by lia.
      by rewrite take_app_length. }
    exists new. split; [done|]. intros q Hin.
    destruct (Hq q Hin) as (p & rest & Hp & -> & Hlinked).
    exists (c :: rest). split; [simpl; by rewrite <- app_assoc|].
    simpl. split; [done|]. split; [done|]. by exists parents, p.
Qed.

Lemma findCommitPaths_sound fuel branch s paths s' :
  findCommitPaths fuel branch s = Done paths s' →
  ∃ source target,
    shaOf (world s) "HEAD" = Some source ∧ shaOf (world s) branch = Some target ∧
    ∀ path, path ∈ paths → linked (world s) source target path.
Proof.
  intros Hrun. unfold findCommitPaths in Hrun.
  apply bind_Done in Hrun as (source & s1 & Hsource & Hrun).
  apply bind_Done in Hrun as (target & s2 & Htarget & Hrun).
  apply bind_Done in Hrun as (acc & s3 & Htraverse & Hrun).
  pose proof (quiet_world _ _ _ _ (quiet_getSha _) Hsource) as Hw1.
  pose proof (quiet_world _ _ _ _ (quiet_getSha _) Htarget) as Hw2.
  apply getSha_Done in Hsource. apply getSha_Done in Htarget.
  rewrite Hw1 in Htarget.
  apply traversePaths_sound in Htraverse as (_ & new & Hnew & Hq).
  unfold ret in Hrun. injection Hrun as <- _.
  exists source, target. split; [done|]. split; [done|].
  intros path Hin. rewrite Hnew in Hin. simpl in Hin.
  destruct (Hq path Hin) as (rest & -> & Hlinked). simpl.
  by rewrite Hw2, Hw1 in Hlinked.
Qed.

(** *** The bound on the recursion

    An outcome reached within the bound is the outcome with any larger
    bound. *)

Lemma bind_more {X Y} (m1 m2 : M G X) (k : X → M G Y) s o :
  (∀ o1, m1 s = o1 → ends o1 → m2 s = o1) →
  (x <- m1 ;; k x) s = o → ends o → (x <- m2 ;; k x) s = o.
Proof.
  unfold bind. intros Hm Hrun Hends.
  destruct (m1 s) as [x s1|why s1] eqn:H1.
  - by rewrite (Hm _ eq_refl I).
  - subst o. by rewrite (Hm _ eq_refl Hends).
Qed.

Lemma foldM_more {X Y} (body1 body2 : Y → X → M G Y) (l : list X) :
  (∀ y x s o, body1 y x s = o → ends o → body2 y x s = o) →
  ∀ y s o, foldM body1 y l s = o → ends o → foldM body2 y l s = o.
Proof.
  intros Hbody. induction l as [|x l IH]; intros y s o Hrun Hends; simpl in *.
  - done.
  - unfold bind in *. destruct (body1 y x s) as [y' s1|why s1] eqn:H1.
    + rewrite (Hbody _ _ _ _ H1 I). by apply IH.
    + subst o. by rewrite (Hbody _ _ _ _ H1 Hends).
Qed.

Lemma traversePaths_more_fuel fuel : ∀ source target path paths s o,
  traversePaths fuel source target path paths s = o → ends o →
  traversePaths (S fuel) source target path paths s = o.
Proof.
  induction fuel as [|fuel IH]; intros source target path paths s o Hrun Hends.
  - simpl in Hrun. by subst o.
  - remember (S fuel) as n eqn:Hn. simpl. rewrite Hn in Hrun. simpl in Hrun.
    destruct (String.eqb source target); [done|].
    unfold bind at 1. unfold bind at 1 in Hrun.
    destruct (getParents source s) as [parents s1|why s1]; [|done].
    unfold bind at 1. unfold bind at 1 in Hrun.
    destruct (makeCommit source s1) as [c s2|why s2]; [|done].
    revert Hrun Hends. apply bind_more. intros o1 Hfold Hends1.
    revert Hfold Hends1. apply foldM_more.
    intros acc p s0 o0 Hstep Hends0. by apply IH.
Qed.

Lemma main_more_fuel fuel (dry : bool) s (o : outcome G unit) :
  main fuel dry s = o → ends o → main (S fuel) dry s = o.
Proof.
  unfold main, findCommitPaths. intros Hrun Hends.
  unfold bind at 1. unfold bind at 1 in Hrun.
  unfold bind at 1. unfold bind at 1 in Hrun.
  destruct (getSha "HEAD" s) as [source s1|why s1]; [|done].
  unfold bind at 1. unfold bind at 1 in Hrun.
  destruct (getSha "main" s1) as [target s2|why s2]; [|done].
  unfold bind at 1. unfold bind at 1 in Hrun.
  destruct (traversePaths fuel source target [] [] s2) as [acc s3|why s3] eqn:Ht.
  - by rewrite (traversePaths_more_fuel _ _ _ _ _ _ _ Ht I).
  - subst o. by rewrite (traversePaths_more_fuel _ _ _ _ _ _ _ Ht Hends).
Qed.

(** *** What a linked path looks like *)

Lemma commitOf_sha (w : G) id c : commitOf w id = Some c → sha c = id.
Proof.
  unfold commitOf. destruct (ok _); [|done].
  destruct (parentsOf w id); [|done]. by intros [= <-].
Qed.

Lemma linked_avoids_target (w : G) target path : ∀ source c,
  linked w source target path → c ∈ path → sha c ≠ target.
Proof.
  induction path as [|c0 rest IH]; intros source c Hlinked Hin.
  - by apply elem_of_nil in Hin.
  - destruct Hlinked as (Hne & Hc0 & parents & next & _ & _ & Hrest).
    apply elem_of_cons in Hin as [->|Hin].
    + by rewrite (commitOf_sha _ _ _ Hc0).
    + by apply (IH next).
Qed.

Lemma linked_last (w : G) target path : ∀ source c,
  linked w source target path → last path = Some c →
  ∃ parents, parentsOf w (sha c) = Some parents ∧ target ∈ parents.
Proof.
  induction path as [|c0 rest IH]; intros source c Hlinked Hlast; [done|].
  destruct Hlinked as (Hne & Hc0 & parents & next & Hparents & Hnext & Hrest).
  destruct rest as [|c1 rest].
  - simpl in Hlast. injection Hlast as <-. simpl in Hrest. subst next.
    exists parents. by rewrite (commitOf_sha _ _ _ Hc0).
  - apply (IH next); [done|]. by rewrite last_cons_cons in Hlast.
Qed.
End Reads.

(** * The reaper and the whole run *)

Section Run.
Context {U : UnicodeTables} {G : Type} {B : Backend G}.

Lemma active_set (active : list string) : ∀ (m : gset string) tag,
  tag ∈ foldl (λ m t, {[t]} ∪ m) m active ↔ tag ∈ m ∨ tag ∈ active.
Proof.
  induction active as [|t active IH]; intros m tag; simpl.
  - split; [by left|]. intros [?|Hin]; [done|]. by apply elem_of_nil in Hin.
  - rewrite IH, elem_of_union, elem_of_singleton, elem_of_cons. tauto.
Qed.

Lemma delete_mutations (tags : list string) : ∀ (s : state G),
  mutations (trace (foldl delete1 s tags))
  = mutations (trace s) ++ (GitTagDelete <$> tags).
Proof.
  induction tags as [|tag tags IH]; intros s; simpl.
  - by rewrite app_nil_r.
  - rewrite IH. unfold delete1. destruct (apply_mutation _ _); simpl.
    rewrite mutations_app. simpl. by rewrite <- app_assoc.
Qed.

Lemma delete_pushed (tags : list string) : ∀ (s : state G),
  pushed (foldl delete1 s tags) = pushed s.
Proof.
  induction tags as [|tag tags IH]; intros s; simpl; [done|].
  rewrite IH. unfold delete1. by destruct (apply_mutation _ _).
Qed.

(** [removeStaleTags] lists the tags once; when the listing fails the
    process exits, otherwise every stale tag of the listing is deleted,
    in order, whatever the deletions answer. *)
Lemma removeStaleTags_run active (s : state G) :
  removeStaleTags active s
  = let r := ask (world s) GitTagList in
    let s1 := emit (RunQuery GitTagList r) s in
    if ok r then Done tt (foldl delete1 s1 (staleTags active (listedTags r)))
    else Stopped ExitFatal (emit (Fatalf "Error running get sha err: %v") s1).
Proof.
  unfold removeStaleTags, listTags, bind, runQuery. simpl.
  destruct (ok (ask (world s) GitTagList)); [|done].
  unfold ret. fold (listedTags (ask (world s) GitTagList)).
  generalize (listedTags (ask (world s) GitTagList)) as tags.
  generalize (emit (RunQuery GitTagList (ask (world s) GitTagList)) s) as s1.
  intros s1 tags. revert s1.
  induction tags as [|tag tags IH]; intros s1; simpl; [done|].
  unfold staleTags. unfold bind at 1.
  destruct (strings_HasPrefix tag BRANCH_PREFIX) eqn:Hprefix; simpl.
  - destruct (bool_decide (tag ∈ _)) eqn:Hin.
    + apply bool_decide_eq_true in Hin. apply active_set in Hin as [Hin|Hin].
      { by apply not_elem_of_empty in Hin. }
      rewrite filter_cons_False by (intros [_ Hn]; by apply Hn).
      apply IH.
    + apply bool_decide_eq_false in Hin.
      rewrite filter_cons_True.
      2:{ split; [done|]. intros Hact. apply Hin, active_set. by right. }
      simpl. rewrite <- IH.
      cbv [deleteTag bind println runMutation emit ret delete1 world pushed trace].
      destruct (apply_mutation _ _); simpl. by rewrite <- app_assoc.
  - rewrite filter_cons_False.
    2:{ intros [Hp _]. unfold BRANCH_PREFIX in Hprefix. congruence. }
    apply IH.
Qed.

(** The loop of [main] over the paths publishes the surviving heads of
    all paths, the [pushed] set carried from one path to the next. *)
Lemma publish_loop (dry : bool) (paths : list (list commit)) : ∀ active (s : state G),
  foldM (λ active p,
           match findTipsOfPrs p with
           | None => panic
           | Some t =>
               if dry then tags <- tagBranches t ;; ret (active ++ tags)
               else pushBranches t ;;; ret active
           end) active paths s
  = let heads := survivors (pushed s) (allHeads paths) in
    Done (active ++ if dry then tagName <$> heads else [])
         (foldl (publish1 (if dry then tagCommand else pushCommand)) s heads).
Proof.
  induction paths as [|p paths IH]; intros active s; simpl.
  - destruct dry; by rewrite app_nil_r.
  - unfold allHeads. simpl. fold (allHeads paths).
    rewrite survivors_app, foldl_app.
    unfold bind at 1. rewrite findTipsOfPrs_scan.
    destruct dry.
    + unfold bind at 1. rewrite tagBranches_run. unfold ret.
      rewrite IH. simpl. rewrite publish_pushed.
      by rewrite fmap_app, app_assoc.
    + unfold bind at 1. rewrite pushBranches_run. unfold ret.
      rewrite IH. simpl. rewrite publish_pushed. done.
Qed.

Lemma main_run fuel (dry : bool) (s : state G) :
  main fuel dry s
  = match findCommitPaths fuel "main" s with
    | Stopped why s1 => Stopped why s1
    | Done paths s1 =>
        let heads := survivors (pushed s1) (allHeads paths) in
        removeStaleTags (if dry then tagName <$> heads else [])
          (foldl (publish1 (if dry then tagCommand else pushCommand)) s1 heads)
    end.
Proof.
  unfold main. unfold bind at 1.
  destruct (findCommitPaths fuel "main" s) as [paths s1|why s1]; [|done].
  unfold bind at 1. by rewrite publish_loop.
Qed.

(** The mutations of a whole run, however it ends: the surviving heads
    of some list of heads are published, then some tags are deleted. *)
Lemma main_mutations fuel (dry : bool) (w : G) :
  ∃ heads tags,
    mutations (trace (final (main fuel dry (start w))))
    = ((if dry then tagCommand else pushCommand) <$> survivors ∅ heads)
      ++ (GitTagDelete <$> tags).
Proof.
  rewrite main_run.
  destruct (quiet_findCommitPaths fuel "main" (start w)) as (_ & Hp & Ht).
  destruct (findCommitPaths fuel "main" (start w)) as [paths s1|why s1];
    simpl in Hp, Ht.
  - exists (allHeads paths). rewrite Hp. rewrite removeStaleTags_run. simpl.
    set (s2 := foldl _ s1 _).
    destruct (ok (ask (world s2) GitTagList)); simpl.
    + eexists. rewrite delete_mutations. unfold emit; simpl.
      rewrite mutations_app. simpl. rewrite app_nil_r.
      unfold s2. rewrite publish_mutations, Ht. done.
    + exists []. unfold emit; simpl.
      rewrite !mutations_app. simpl. rewrite !app_nil_r.
      unfold s2. rewrite publish_mutations, Ht. done.
  - exists [], []. simpl. by rewrite Ht.
Qed.

Lemma once_in_NoDup {X} (f : X → string) (id : string) (l : list X) :
  NoDup (f <$> l) → length (filter (λ x, f x = id) l) ≤ 1.
Proof.
  induction l as [|x l IH]; simpl; intros Hnd; [lia|].
  apply NoDup_cons in Hnd as [Hx Hnd].
  destruct (decide (f x = id)) as [Heq|Hne].
  - rewrite filter_cons_True by done. simpl.
    assert (Hnone : filter (λ x, f x = id) l = []); [|rewrite Hnone; simpl; lia].
    destruct (filter (λ x, f x = id) l) as [|y rest] eqn:Hfilter; [done|].
    assert (Hy : y ∈ filter (λ x, f x = id) l) by (rewrite Hfilter; by left).
    apply list_elem_of_filter in Hy as [Heqy Hy]. exfalso. apply Hx.
    apply list_elem_of_fmap. exists y. split; [congruence|done].
  - rewrite filter_cons_False by done. by apply IH.
Qed.
End Run.

(** * Deduplication and ignorable refs *)

Section Dedup.
Context {U : UnicodeTables} {G : Type} {B : Backend G}.

Lemma publishes_count (mk : head → mutation) (id : string) (l : list head) :
  (∀ h, publishes id (mk h) = String.eqb (head_sha h) id) →
  length (filter (λ m, publishes id m = true) (mk <$> l))
  = length (filter (λ h, head_sha h = id) l).
Proof.
  intros Hmk. induction l as [|h l IH]; [done|]. rewrite fmap_cons.
  destruct (String.eqb_spec (head_sha h) id) as [Heq|Hne].
  - rewrite (filter_cons_True _ (mk h))
      by (rewrite Hmk; by apply String.eqb_eq).
    rewrite (filter_cons_True _ h) by done.
    rewrite !length_cons. by rewrite IH.
  - rewrite (filter_cons_False _ (mk h)).
    2:{ rewrite Hmk. intros Heq. by apply String.eqb_eq in Heq. }
    by rewrite (filter_cons_False _ h) by done.
Qed.

Lemma deletes_publish_nothing (id : string) (tags : list string) :
  filter (λ m, publishes id m = true) (GitTagDelete <$> tags) = [].
Proof.
  induction tags as [|tag tags IH]; simpl; [done|].
  by rewrite filter_cons_False.
Qed.

(** Once [dfsPushes] has gone over a head that is not ignorable, the
    head's commit is in [pushed]. *)
Lemma survivors_marks (l : list head) : ∀ (seen : gset string) h,
  h ∈ l → shouldIgnoreRef (head_ref h) = false →
  head_sha h ∈ marked seen (survivors seen l).
Proof.
  induction l as [|h0 l IH]; intros seen h Hin Hig.
  - by apply elem_of_nil in Hin.
  - simpl. destruct (shouldIgnoreRef (head_ref h0)) eqn:Hig0; simpl.
    + apply elem_of_cons in Hin as [->|Hin]; [congruence|by apply IH].
    + destruct (bool_decide (head_sha h0 ∈ seen)) eqn:Hseen.
      * apply bool_decide_eq_true in Hseen.
        apply elem_of_cons in Hin as [->|Hin]; [|by apply IH].
        apply elem_of_marked. by left.
      * change (marked seen (h0 :: ?l)) with (marked ({[head_sha h0]} ∪ seen) l).
        apply elem_of_cons in Hin as [->|Hin]; [|by apply IH].
        apply elem_of_marked. left. apply elem_of_union. left.
        by apply elem_of_singleton.
Qed.

Lemma lower_keeps_ASCII (s : string) : allASCII (mapBytes lowerByte s) = allASCII s.
Proof.
  induction s as [|c s IH]; simpl; [done|]. rewrite IH. f_equal.
  by destruct c as [[] [] [] [] [] [] [] []].
Qed.

Lemma ignorable_ignored (ref : string) :
  ignorable ref → shouldIgnoreRef ref = true.
Proof.
  intros Hfold. unfold shouldIgnoreRef, strings_ToLower.
  assert (Hlow : mapBytes lowerByte ref ∈ ignore).
  { unfold ignorable, equalFoldASCII in Hfold. unfold ignore.
    destruct Hfold as [Heq|[Heq|Heq]]; apply String.eqb_eq in Heq;
      rewrite Heq; simpl; set_solver. }
  assert (HA : allASCII ref = true).
  { rewrite <- lower_keeps_ASCII.
    unfold ignorable, equalFoldASCII in Hfold.
    destruct Hfold as [Heq|[Heq|Heq]]; apply String.eqb_eq in Heq;
      by rewrite Heq. }
  rewrite HA. by apply bool_decide_eq_true.
Qed.

Lemma tagName_inj (h1 h2 : head) :
  tagName h1 = tagName h2 → head_ref h1 = head_ref h2.
Proof. unfold tagName, BRANCH_PREFIX. simpl. by intros [= ?]. Qed.

(** C3: within one run a commit is published at most once.  However
    the run of [main] ends, in either mode, and for every commit [id],
    at most one of the pushes and tag creations of the run is for [id]:
    [dfsPushes] goes through the heads in order and looks [h.sha] up in
    [pushed], which lasts for the whole run, before it publishes. *)
Theorem C3_identity_published_once (fuel : nat) (dry : bool) (w : G) (id : string) :
  length (filter (λ m, publishes id m = true)
                 (mutations (trace (final (main fuel dry (start w)))))) ≤ 1.
Proof.
  destruct (main_mutations fuel dry w) as (heads & tags & ->).
  rewrite filter_app, deletes_publish_nothing, app_nil_r.
  rewrite publishes_count.
  - apply once_in_NoDup, survivors_NoDup.
  - intros h. by destruct dry.
Qed.


(** C8: a head whose ref is empty, [null] or [nil] in any mix of cases
    is never published.  The publisher runs as if the head were not in
    the list, so nothing is printed or run for it and [pushed] does not
    grow by it; no push of a run is to its ref, no tag creation is for
    its tag name, and the tag names a dry run returns never include its
    tag name. *)
Theorem C8_ignorable_head_never_published (h : head) :
  ignorable (head_ref h) →
  (∀ before after (s : state G),
      pushBranches (before ++ h :: after) s = pushBranches (before ++ after) s
      ∧ tagBranches (before ++ h :: after) s = tagBranches (before ++ after) s)
  ∧ (∀ heads (s : state G) new,
        mutations (trace (final (pushBranches heads s))) = mutations (trace s) ++ new →
        ∀ id, GitPush id (head_ref h) ∉ new)
  ∧ (∀ heads (s : state G) new,
        mutations (trace (final (tagBranches heads s))) = mutations (trace s) ++ new →
        ∀ id, GitTag (tagName h) id ∉ new)
  ∧ (∀ heads (s : state G) active s',
        tagBranches heads s = Done active s' → tagName h ∉ active).
Proof.
  intros Hig. apply ignorable_ignored in Hig.
  split; [|split; [|split]].
  - intros before after s. rewrite !pushBranches_run, !tagBranches_run.
    by rewrite survivors_skip by (by left).
  - intros heads s new Hnew id Hin.
    rewrite pushBranches_run in Hnew. simpl in Hnew.
    rewrite publish_mutations in Hnew. apply app_inv_head in Hnew. subst new.
    apply list_elem_of_fmap in Hin as (h' & Heq & Hin).
    apply survivors_sound in Hin as (_ & Hig' & _).
    injection Heq as _ Href. congruence.
  - intros heads s new Hnew id Hin.
    rewrite tagBranches_run in Hnew. simpl in Hnew.
    rewrite publish_mutations in Hnew. apply app_inv_head in Hnew. subst new.
    apply list_elem_of_fmap in Hin as (h' & Heq & Hin).
    apply survivors_sound in Hin as (_ & Hig' & _).
    assert (Hname : tagName h' = tagName h) by (unfold tagCommand in Heq; congruence).
    apply tagName_inj in Hname. congruence.
  - intros heads s active s' Hrun Hin.
    rewrite tagBranches_run in Hrun. injection Hrun as <- _.
    apply list_elem_of_fmap in Hin as (h' & Hname & Hin).
    apply survivors_sound in Hin as (_ & Hig' & _).
    apply tagName_inj in Hname. congruence.
Qed.
End Dedup.

(** * The claims on the reaper, the enumerator and failures *)

Section Claims.
Context {U : UnicodeTables} {G : Type} {B : Backend G}.

Lemma staleTags_spec (active tags : list string) (tag : string) :
  tag ∈ staleTags active tags
  ↔ tag ∈ tags ∧ strings_HasPrefix tag "PR_BRANCH" = true ∧ tag ∉ active.
Proof. unfold staleTags. rewrite list_elem_of_filter. tauto. Qed.

Lemma removeStaleTags_Done (active : list string) (s : state G) :
  ok (ask (world s) GitTagList) = true →
  ∃ s', removeStaleTags active s = Done tt s' ∧
        mutations (trace s')
        = mutations (trace s)
          ++ (GitTagDelete <$> staleTags active (listedTags (ask (world s) GitTagList))).
Proof.
  intros Hok. rewrite removeStaleTags_run. simpl. rewrite Hok.
  eexists. split; [done|]. rewrite delete_mutations. unfold emit; simpl.
  rewrite mutations_app. simpl. by rewrite app_nil_r.
Qed.


(** C1, as the code has it: the reaper runs at the end of every run,
    live or dry.  Once the paths are found, [main] publishes the
    surviving heads and then calls [removeStaleTags], in a dry run with
    the tag names it created, in a live run with no name at all; so a
    live run whose tag listing succeeds deletes every listed tag whose
    name starts with [PR_BRANCH]. *)
Theorem C1_reaper_runs_in_both_modes
    (fuel : nat) (w : G) (paths : list (list commit)) (s1 : state G) :
  findCommitPaths fuel "main" (start w) = Done paths s1 →
  (∀ dry : bool,
      main fuel dry (start w)
      = removeStaleTags
          (if dry then tagName <$> survivors ∅ (allHeads paths) else [])
          (foldl (publish1 (if dry then tagCommand else pushCommand)) s1
                 (survivors ∅ (allHeads paths))))
  ∧ ∀ listing,
      listing = ask (world (foldl (publish1 pushCommand) s1
                                  (survivors ∅ (allHeads paths)))) GitTagList →
      ok listing = true →
      ∃ s' deleted,
        main fuel false (start w) = Done tt s' ∧
        mutations (trace s')
        = (pushCommand <$> survivors ∅ (allHeads paths))
          ++ (GitTagDelete <$> deleted) ∧
        ∀ tag, tag ∈ deleted
               ↔ tag ∈ listedTags listing ∧ strings_HasPrefix tag "PR_BRANCH" = true.
Proof.
  intros Hpaths.
  destruct (quiet_findCommitPaths fuel "main" (start w)) as (_ & Hp & Ht).
  rewrite Hpaths in Hp, Ht. simpl in Hp, Ht.
  assert (Hmain : ∀ dry : bool,
    main fuel dry (start w)
    = removeStaleTags
        (if dry then tagName <$> survivors ∅ (allHeads paths) else [])
        (foldl (publish1 (if dry then tagCommand else pushCommand)) s1
               (survivors ∅ (allHeads paths)))).
  { intros dry. rewrite main_run, Hpaths. simpl. by rewrite Hp. }
  split; [exact Hmain|].
  intros listing -> Hok. rewrite (Hmain false).
  destruct (removeStaleTags_Done [] _ Hok) as (s' & Hrun & Hmut).
  eexists s', _. split; [exact Hrun|]. split.
  - rewrite Hmut, publish_mutations, Ht. done.
  - intros tag. rewrite staleTags_spec. split; [tauto|].
    intros [? ?]. split; [done|]. split; [done|]. apply not_elem_of_nil.
Qed.

(** C4, as the code has it: a path starts with the source commit
    itself and stops before the target.  Every path of
    [findCommitPaths] is linked from the commit of [HEAD] to the commit
    of the branch: when the two differ its first commit is the source,
    each next commit is a parent of the one before, the target is a
    parent of its last commit, and the target is not on it; when the
    two are the same commit the path is empty. *)
Theorem C4_paths_start_at_source_stop_before_target
    (fuel : nat) (branch : string) (s : state G)
    (paths : list (list commit)) (s' : state G) :
  findCommitPaths fuel branch s = Done paths s' →
  ∃ source target,
    shaOf (world s) "HEAD" = Some source ∧
    shaOf (world s) branch = Some target ∧
    ∀ path, path ∈ paths →
      linked (world s) source target path
      ∧ (∀ c, c ∈ path → sha c ≠ target)
      ∧ (source ≠ target → ∃ c, path !! 0 = Some c ∧ sha c = source)
      ∧ (source = target → path = [])
      ∧ (∀ c, last path = Some c →
              ∃ parents, parentsOf (world s) (sha c) = Some parents ∧ target ∈ parents).
Proof.
  intros Hrun.
  destruct (findCommitPaths_sound _ _ _ _ _ Hrun)
    as (source & target & Hsource & Htarget & Hlinked).
  exists source, target. split; [done|]. split; [done|].
  intros path Hin. specialize (Hlinked path Hin).
  split; [done|]. split; [|split; [|split]].
  - intros c Hc. by apply (linked_avoids_target _ _ _ _ _ Hlinked).
  - intros Hne. destruct path as [|c rest]; simpl in Hlinked; [done|].
    destruct Hlinked as (_ & Hc & _). exists c. split; [done|].
    by apply (commitOf_sha (world s)).
  - intros Heq. destruct path as [|c rest]; [done|].
    by destruct Hlinked as (Hne & _).
  - intros c Hlast. by apply (linked_last _ _ _ _ _ Hlinked).
Qed.

Lemma written_app (t1 t2 : list event) :
  written (t1 ++ t2) = written t1 ++ written t2.
Proof. apply omap_app. Qed.

Lemma attempt_written (cmd : mutation) (s : state G) :
  written (trace (attempt cmd s)) = written (trace s) ++ [Println cmd].
Proof.
  unfold attempt. destruct (apply_mutation (world s) cmd). simpl.
  by rewrite written_app.
Qed.

Lemma publish_written mk (l : list head) : ∀ (s : state G),
  written (trace (foldl (publish1 mk) s l))
  = written (trace s) ++ (Println <$> (mk <$> l)).
Proof.
  induction l as [|h l IH]; intros s; simpl.
  - by rewrite app_nil_r.
  - rewrite IH. unfold publish1. destruct (apply_mutation (world s) (mk h)); simpl.
    rewrite written_app. simpl. by rewrite <- app_assoc.
Qed.

Lemma delete_written (tags : list string) : ∀ (s : state G),
  written (trace (foldl delete1 s tags))
  = written (trace s) ++ (Println <$> (GitTagDelete <$> tags)).
Proof.
  induction tags as [|tag tags IH]; intros s; simpl.
  - by rewrite app_nil_r.
  - rewrite IH. unfold delete1. destruct (apply_mutation _ _); simpl.
    rewrite written_app. simpl. by rewrite <- app_assoc.
Qed.

(** *** Reads that succeed write nothing *)

Lemma hushed_ret {X} (x : X) : hushed (ret x : M G X).
Proof. intros s a s' Hrun. unfold ret in Hrun. by injection Hrun as _ <-. Qed.

Lemma hushed_panic {X} : hushed (panic : M G X).
Proof. by intros s a s' Hrun. Qed.

Lemma hushed_bind {X Y} (m : M G X) (k : X → M G Y) :
  hushed m → (∀ x, hushed (k x)) → hushed (x <- m ;; k x).
Proof.
  intros Hm Hk s y s' Hrun. apply bind_Done in Hrun as (x & s1 & Hx & Hy).
  rewrite (Hk _ _ _ _ Hy). by apply (Hm _ _ _ Hx).
Qed.

Lemma hushed_foldM {X Y} (body : Y → X → M G Y) (l : list X) :
  (∀ y x, hushed (body y x)) → ∀ y, hushed (foldM body y l).
Proof.
  intros Hbody. induction l as [|x l IH]; intros y; simpl.
  - apply hushed_ret.
  - apply hushed_bind; [apply Hbody|apply IH].
Qed.

Lemma hushed_read {X} (q : query) (f : reply → X) (format : string) :
  hushed (r <- runQuery q ;; if ok r then ret (f r) else fatalf format : M G X).
Proof.
  intros s a s'. unfold bind, runQuery. simpl.
  destruct (ok (ask (world s) q)); [|done].
  unfold ret. intros [= _ <-]. unfold emit. simpl.
  rewrite written_app. simpl. by rewrite app_nil_r.
Qed.

Lemma hushed_traversePaths fuel : ∀ source target path paths,
  hushed (traversePaths fuel source target path paths : M G _).
Proof.
  induction fuel as [|fuel IH]; intros source target path paths; simpl.
  - by intros s a s' Hrun.
  - destruct (String.eqb source target); [apply hushed_ret|].
    apply hushed_bind; [apply hushed_read|]. intros parents.
    apply hushed_bind.
    { apply hushed_bind; [apply hushed_read|]. intros msg.
      apply hushed_bind; [apply hushed_read|]. intros ps. apply hushed_ret. }
    intros c. apply hushed_bind.
    + apply hushed_foldM. intros acc p. apply IH.
    + intros acc. destruct (acc.1); [apply hushed_panic|apply hushed_ret].
Qed.

Lemma hushed_findCommitPaths fuel branch :
  hushed (findCommitPaths fuel branch : M G _).
Proof.
  apply hushed_bind; [apply hushed_read|]. intros source.
  apply hushed_bind; [apply hushed_read|]. intros target.
  apply hushed_bind; [apply hushed_traversePaths|]. intros acc.
  apply hushed_ret.
Qed.

(** *** A whole run that reaches the listing *)

Lemma main_goes_through fuel (dry : bool) (w : G)
    (paths : list (list commit)) (s1 : state G) (listing : reply) :
  findCommitPaths fuel "main" (start w) = Done paths s1 →
  listing = ask (world (foldl (publish1 (if dry then tagCommand else pushCommand)) s1
                              (survivors ∅ (allHeads paths)))) GitTagList →
  ok listing = true →
  ∃ s', main fuel dry (start w) = Done tt s' ∧
        mutations (trace s')
        = ((if dry then tagCommand else pushCommand) <$> survivors ∅ (allHeads paths))
          ++ (GitTagDelete
                <$> staleTags (if dry then tagName <$> survivors ∅ (allHeads paths) else [])
                              (listedTags listing)) ∧
        written (trace s') = Println <$> mutations (trace s').
Proof.
  intros Hpaths -> Hok.
  destruct (quiet_findCommitPaths fuel "main" (start w)) as (_ & Hp & Ht).
  pose proof (hushed_findCommitPaths fuel "main" _ _ _ Hpaths) as Hwr.
  rewrite Hpaths in Hp, Ht. simpl in Hp, Ht, Hwr.
  rewrite main_run, Hpaths. simpl. rewrite Hp.
  rewrite removeStaleTags_run. simpl. rewrite Hok.
  eexists. split; [done|].
  rewrite delete_mutations, delete_written. unfold emit; simpl.
  rewrite mutations_app, written_app. simpl. rewrite !app_nil_r.
  rewrite publish_mutations, publish_written, Ht, Hwr. simpl.
  split; [done|]. by rewrite fmap_app.
Qed.

Lemma attempt_run (cmd : mutation) (s : state G) :
  (println cmd ;;; _ <- runMutation cmd ;; ret tt) s = Done tt (attempt cmd s).
Proof.
  cbv [bind println runMutation emit ret attempt world pushed trace].
  destruct (apply_mutation _ _); simpl. by rewrite <- app_assoc.
Qed.

(** *** Failed reads *)

Lemma clean_snoc (t : list event) (e : event) :
  clean t → (∀ q r, e = RunQuery q r → ok r = true) → clean (t ++ [e]).
Proof.
  intros Ht He q r Hin. apply elem_of_app in Hin as [Hin|Hin].
  - by apply (Ht q).
  - apply list_elem_of_singleton in Hin. by apply (He q).
Qed.

Lemma strict_ret {X} (x : X) : strict (ret x : M G X).
Proof. by intros s Hs. Qed.

Lemma strict_panic {X} : strict (panic : M G X).
Proof. intros s Hs. by left. Qed.

Lemma strict_bind {X Y} (m : M G X) (k : X → M G Y) :
  strict m → (∀ x, strict (k x)) → strict (x <- m ;; k x).
Proof.
  intros Hm Hk s Hs. unfold bind. specialize (Hm s Hs).
  destruct (m s) as [x s1|why s1]; [by apply Hk|done].
Qed.

Lemma strict_foldM {X Y} (body : Y → X → M G Y) (l : list X) :
  (∀ y x, strict (body y x)) → ∀ y, strict (foldM body y l).
Proof.
  intros Hbody. induction l as [|x l IH]; intros y; simpl.
  - apply strict_ret.
  - apply strict_bind; [apply Hbody|apply IH].
Qed.

(** The shape of the three history reads and of [listTags]. *)
Lemma strict_read {X} (q : query) (f : reply → X) (format : string) :
  strict (r <- runQuery q ;; if ok r then ret (f r) else fatalf format : M G X).
Proof.
  intros s Hs. unfold bind, runQuery. simpl.
  destruct (ok (ask (world s) q)) eqn:Hok; simpl.
  - apply clean_snoc; [done|]. by intros q' r' [= _ <-].
  - right. split; [done|].
    exists (trace s), q, (ask (world s) q), format.
    split; [by rewrite <- app_assoc|done].
Qed.

Lemma strict_traversePaths fuel : ∀ source target path paths,
  strict (traversePaths fuel source target path paths : M G _).
Proof.
  induction fuel as [|fuel IH]; intros source target path paths; simpl.
  - intros s Hs. by left.
  - destruct (String.eqb source target); [apply strict_ret|].
    apply strict_bind; [apply strict_read|]. intros parents.
    apply strict_bind.
    { apply strict_bind; [apply strict_read|]. intros msg.
      apply strict_bind; [apply strict_read|]. intros ps. apply strict_ret. }
    intros c. apply strict_bind.
    + apply strict_foldM. intros acc p. apply IH.
    + intros acc. destruct (acc.1); [apply strict_panic|apply strict_ret].
Qed.

Lemma strict_findCommitPaths fuel branch :
  strict (findCommitPaths fuel branch : M G _).
Proof.
  apply strict_bind; [apply strict_read|]. intros source.
  apply strict_bind; [apply strict_read|]. intros target.
  apply strict_bind; [apply strict_traversePaths|]. intros acc.
  apply strict_ret.
Qed.

Lemma failed_read_stops fuel branch (s : state G) (q : query) (r : reply) :
  clean (trace s) →
  RunQuery q r ∈ trace (final (findCommitPaths fuel branch s)) →
  ok r = false →
  ∃ s' t format,
    findCommitPaths fuel branch s = Stopped ExitFatal s' ∧
    trace s' = t ++ [RunQuery q r; Fatalf format].
Proof.
  intros Hs Hin Hfail.
  pose proof (strict_findCommitPaths fuel branch s Hs) as Hstrict.
  destruct (findCommitPaths fuel branch s) as [paths s'|why s']; simpl in Hin.
  - apply Hstrict in Hin. congruence.
  - destruct Hstrict as [[_ Hclean]|[-> (t & q' & r' & format & Ht & Hr' & Hclean)]].
    + apply Hclean in Hin. congruence.
    + exists s', t, format. split; [done|].
      rewrite Ht in Hin. apply elem_of_app in Hin as [Hin|Hin].
      * apply Hclean in Hin. congruence.
      * apply elem_of_cons in Hin as [[= -> ->]|Hin]; [done|].
        by apply list_elem_of_singleton in Hin.
Qed.

(** C9, as the code has it: a failed mutation never ends the run and
    is not logged by the program; a failed history read ends the run at
    once.  (1) Each of the three mutations prints its command line, runs
    it and goes on, whatever the backend answers; (2) all the program
    writes for an attempt is that command line, whether the attempt
    failed or not: the error of [cmd.Run] is dropped; (3, 4) the publisher
    tries every surviving head, and which heads survive does not depend
    on any answer of the backend; (5) the reaper tries every stale tag of
    the listing; (6) a whole run, live or dry, whose paths are found and
    whose tag listing succeeds ends normally whatever the mutations
    answered, having tried every surviving head of all paths and then
    every stale tag, and having written the command lines of these
    attempts and nothing else; (7) a read of a commit, of its parents or
    of its message that fails exits with [log.Fatalf]; (8) when a history
    read fails while the paths are enumerated, [main] has exited right
    after that read, with no mutation run and the repository as it
    was. *)
Theorem C9_mutations_best_effort_reads_fatal :
  (∀ (h : head) (tag : string) (s : state G),
      pushBranch h s = Done tt (attempt (pushCommand h) s)
      ∧ tagBranch h s = Done tt (attempt (tagCommand h) s)
      ∧ deleteTag tag s = Done tt (attempt (GitTagDelete tag) s))
  ∧ (∀ (cmd : mutation) (s : state G),
        written (trace (attempt cmd s)) = written (trace s) ++ [Println cmd])
  ∧ (∀ (heads : list head) (s : state G),
        ∃ s', pushBranches heads s = Done tt s' ∧
              mutations (trace s')
              = mutations (trace s) ++ (pushCommand <$> survivors (pushed s) heads))
  ∧ (∀ (heads : list head) (s : state G),
        ∃ s', tagBranches heads s
              = Done (tagName <$> survivors (pushed s) heads) s' ∧
              mutations (trace s')
              = mutations (trace s) ++ (tagCommand <$> survivors (pushed s) heads))
  ∧ (∀ (active : list string) (s : state G),
        ok (ask (world s) GitTagList) = true →
        ∃ s', removeStaleTags active s = Done tt s' ∧
              mutations (trace s')
              = mutations (trace s)
                ++ (GitTagDelete
                      <$> staleTags active (listedTags (ask (world s) GitTagList))))
  ∧ (∀ (fuel : nat) (dry : bool) (w : G) (paths : list (list commit))
       (s1 : state G) (listing : reply),
        findCommitPaths fuel "main" (start w) = Done paths s1 →
        listing = ask (world (foldl (publish1 (if dry then tagCommand else pushCommand))
                                    s1 (survivors ∅ (allHeads paths)))) GitTagList →
        ok listing = true →
        ∃ s', main fuel dry (start w) = Done tt s' ∧
              mutations (trace s')
              = ((if dry then tagCommand else pushCommand)
                   <$> survivors ∅ (allHeads paths))
                ++ (GitTagDelete
                      <$> staleTags
                            (if dry then tagName <$> survivors ∅ (allHeads paths) else [])
                            (listedTags listing)) ∧
              written (trace s') = Println <$> mutations (trace s'))
  ∧ (∀ (ref : string) (s : state G),
        (ok (ask (world s) (GitShow "%H" ref)) = false →
         ∃ s', getSha ref s = Stopped ExitFatal s')
        ∧ (ok (ask (world s) (GitShow "%P" ref)) = false →
           ∃ s', getParents ref s = Stopped ExitFatal s')
        ∧ (ok (ask (world s) (GitShow "%B" ref)) = false →
           ∃ s', getMessage ref s = Stopped ExitFatal s'))
  ∧ (∀ (fuel : nat) (dry : bool) (w : G) (q : query) (r : reply),
        RunQuery q r ∈ trace (final (findCommitPaths fuel "main" (start w))) →
        ok r = false →
        ∃ s' t format,
          main fuel dry (start w) = Stopped ExitFatal s' ∧
          trace s' = t ++ [RunQuery q r; Fatalf format] ∧
          mutations (trace s') = [] ∧ world s' = w).
Proof.
  split; [|split; [|split; [|split; [|split; [|split; [|split]]]]]].
  - intros h tag s. unfold pushBranch, tagBranch, deleteTag.
    by rewrite !attempt_run.
  - apply attempt_written.
  - intros heads s. rewrite pushBranches_run. eexists. split; [done|].
    apply publish_mutations.
  - intros heads s. rewrite tagBranches_run. eexists. split; [done|].
    apply publish_mutations.
  - apply removeStaleTags_Done.
  - apply main_goes_through.
  - intros ref s. unfold getSha, getParents, getMessage, bind, runQuery, fatalf.
    simpl. repeat split; intros ->; by eexists.
  - intros fuel dry w q r Hin Hfail.
    destruct (failed_read_stops fuel "main" (start w) q r) as (s' & t & format & Hrun & Ht);
      [by intros q' r' Hq'; apply elem_of_nil in Hq'|done|done|].
    destruct (quiet_findCommitPaths fuel "main" (start w)) as (Hw & _ & Hm).
    rewrite Hrun in Hw, Hm. simpl in Hw, Hm.
    exists s', t, format. by rewrite main_run, Hrun.
Qed.
End Claims.

(** * More on segment extraction and branch markers *)

Lemma hasBranch_true (c : commit) : hasBranch c = true ↔ psBranch c ≠ "".
Proof.
  unfold hasBranch. destruct (String.eqb_spec (psBranch c) ""); simpl; split;
    try done; intros Hne; by destruct Hne.
Qed.

Lemma stopper_test (c : commit) : hasBranch c || isMerge c = true ↔ stopper c.
Proof.
  unfold stopper. rewrite orb_true_iff, hasBranch_true. tauto.
Qed.

Lemma scanTips_refs (commits : list commit) : ∀ start,
  head_ref <$> scanTips start commits
  = psBranch <$> filter (λ c, isMerge c = false ∧ psBranch c ≠ "") commits.
Proof.
  induction commits as [|c rest IH]; intros start; [done|]. simpl.
  destruct (hasBranch c) eqn:Hb; simpl.
  - apply hasBranch_true in Hb. destruct (isMerge c) eqn:Hm; simpl.
    + rewrite filter_cons_False by (intros [? _]; congruence). apply IH.
    + rewrite filter_cons_True by done. simpl. by rewrite IH.
  - assert (Hnone : psBranch c = "").
    { destruct (String.eqb_spec (psBranch c) "") as [|Hne]; [done|].
      apply hasBranch_true in Hne. congruence. }
    rewrite filter_cons_False by (intros [_ ?]; congruence).
    destruct (isMerge c); simpl; apply IH.
Qed.

(** X1: [findTipsOfPrs] never indexes outside its slices, and returns
    one head for each commit that carries a branch and is not a merge, in
    path order, with that commit's branch as the ref. *)
Theorem findTipsOfPrs_one_head_per_marker (commits : list commit) :
  ∃ tips, findTipsOfPrs commits = Some tips ∧
          head_ref <$> tips
          = psBranch <$> filter (λ c, isMerge c = false ∧ psBranch c ≠ "") commits.
Proof.
  exists (scanTips None commits). split; [apply findTipsOfPrs_scan|].
  apply scanTips_refs.
Qed.

Lemma scanTips_tip (commits : list commit) : ∀ start h,
  h ∈ scanTips start commits →
  start = Some (head_sha h)
  ∨ ∃ c, c ∈ commits ∧ sha c = head_sha h ∧ isMerge c = false.
Proof.
  induction commits as [|c rest IH]; intros start h Hin; simpl in Hin.
  - by apply elem_of_nil in Hin.
  - destruct (hasBranch c || isMerge c) eqn:Hstop.
    + apply elem_of_app in Hin as [Hin|Hin].
      * destruct (negb (isMerge c) && hasBranch c) eqn:Hemit;
          [|by apply elem_of_nil in Hin].
        apply list_elem_of_singleton in Hin. subst h. simpl.
        destruct start as [first|]; [by left|]. right. exists c. simpl.
        split; [by left|]. split; [done|].
        apply andb_true_iff in Hemit as [Hm _]. by apply negb_true_iff in Hm.
      * destruct (IH None h Hin) as [?|(c' & ? & ? & ?)]; [done|].
        right. exists c'. split; [by right|done].
    + apply orb_false_iff in Hstop as [_ Hm].
      destruct (IH _ h Hin) as [Hfirst|(c' & ? & ? & ?)].
      * injection Hfirst as Hfirst. destruct start as [first|]; simpl in Hfirst.
        -- left. by rewrite Hfirst.
        -- right. exists c. split; [by left|done].
      * right. exists c'. split; [by right|done].
Qed.

(** X2: the commit of every head is a commit of the path that is not a
    merge. *)
Theorem findTipsOfPrs_tip_on_path_not_merge
    (commits : list commit) (tips : list head) (h : head) :
  findTipsOfPrs commits = Some tips → h ∈ tips →
  ∃ c, c ∈ commits ∧ sha c = head_sha h ∧ isMerge c = false.
Proof.
  rewrite findTipsOfPrs_scan. intros [= <-] Hin.
  by destruct (scanTips_tip _ _ _ Hin) as [?|?].
Qed.

Lemma scanTips_no_stopper (tail : list commit) : ∀ start,
  Forall (λ c, ¬ stopper c) tail → scanTips start tail = [].
Proof.
  induction tail as [|c rest IH]; intros start Htail; [done|]. simpl.
  apply Forall_cons in Htail as [Hc Hrest].
  destruct (hasBranch c || isMerge c) eqn:Hstop.
  - by apply stopper_test in Hstop.
  - by apply IH.
Qed.

Lemma scanTips_tail (commits : list commit) : ∀ start tail,
  Forall (λ c, ¬ stopper c) tail →
  scanTips start (commits ++ tail) = scanTips start commits.
Proof.
  induction commits as [|c rest IH]; intros start tail Htail; simpl.
  - by apply scanTips_no_stopper.
  - destruct (hasBranch c || isMerge c); by rewrite IH.
Qed.

(** X3: the commits after the last marker or merge are not published.
    Commits without a branch that are not merges, at the end of the path,
    change nothing; a path made of such commits only has no head. *)
Theorem findTipsOfPrs_drops_open_window (commits tail : list commit) :
  Forall (λ c, ¬ stopper c) tail →
  findTipsOfPrs (commits ++ tail) = findTipsOfPrs commits
  ∧ findTipsOfPrs tail = Some [].
Proof.
  intros Htail. rewrite !findTipsOfPrs_scan.
  rewrite scanTips_tail by done. rewrite (scanTips_no_stopper tail None Htail).
  by split.
Qed.

Lemma scanTips_split (before : list commit) : ∀ start c after,
  stopper c →
  scanTips start (before ++ c :: after)
  = scanTips start (before ++ [c]) ++ scanTips None after.
Proof.
  induction before as [|c0 rest IH]; intros start c after Hc; simpl.
  - apply stopper_test in Hc. rewrite Hc. by rewrite app_nil_r.
  - destruct (hasBranch c0 || isMerge c0).
    + rewrite (IH None c after Hc). by rewrite app_assoc.
    + by apply IH.
Qed.

(** X4: a path can be cut after any commit that carries a branch or is a
    merge: the heads of the whole path are the heads of the part up to and
    with that commit, followed by the heads of the rest taken on its
    own. *)
Theorem findTipsOfPrs_cut_at_stopper (before after : list commit) (c : commit) :
  stopper c →
  ∃ tips1 tips2,
    findTipsOfPrs (before ++ [c]) = Some tips1 ∧
    findTipsOfPrs after = Some tips2 ∧
    findTipsOfPrs (before ++ c :: after) = Some (tips1 ++ tips2).
Proof.
  intros Hc. exists (scanTips None (before ++ [c])), (scanTips None after).
  rewrite !findTipsOfPrs_scan. by rewrite (scanTips_split before None c after Hc).
Qed.

Lemma Split_not_nil (s : string) (sep : ascii) : strings_Split s sep ≠ [].
Proof.
  destruct s as [|c rest]; simpl; [done|].
  destruct (Ascii.eqb c sep); [done|]. by destruct (strings_Split rest sep).
Qed.

Lemma Split_pieces (s : string) (sep : ascii) : ∀ piece,
  piece ∈ strings_Split s sep → hasByte sep piece = false.
Proof.
  induction s as [|c rest IH]; intros piece Hin; simpl in Hin.
  - by apply list_elem_of_singleton in Hin as ->.
  - destruct (Ascii.eqb c sep) eqn:Hc.
    + apply elem_of_cons in Hin as [->|Hin]; [done|by apply IH].
    + destruct (strings_Split rest sep) as [|first pieces].
      * apply list_elem_of_singleton in Hin as ->. simpl. by rewrite Hc.
      * apply elem_of_cons in Hin as [->|Hin].
        -- simpl. rewrite Hc. apply IH. by left.
        -- apply IH. by right.
Qed.

Lemma Split_whole (x : string) (sep : ascii) :
  hasByte sep x = false → strings_Split x sep = [x].
Proof.
  induction x as [|c rest IH]; simpl; [done|]. intros Hno.
  apply orb_false_iff in Hno as [Hc Hrest]. rewrite Hc. by rewrite IH.
Qed.

Lemma Split_app (x rest : string) (sep : ascii) :
  hasByte sep x = false →
  strings_Split (x +:+ String sep rest) sep = x :: strings_Split rest sep.
Proof.
  induction x as [|c x IH]; simpl; intros Hno.
  - by rewrite Ascii.eqb_refl.
  - apply orb_false_iff in Hno as [Hc Hx]. rewrite Hc. by rewrite IH.
Qed.

(** Joining lines with a separator they do not contain and splitting
    again gives the lines back. *)
Lemma Split_concat (sep : ascii) (lines : list string) :
  lines ≠ [] → Forall (λ l, hasByte sep l = false) lines →
  strings_Split (String.concat (String sep EmptyString) lines) sep = lines.
Proof.
  induction lines as [|x rest IH]; intros Hne Hlines; [done|].
  apply Forall_cons in Hlines as [Hx Hrest].
  destruct rest as [|y rest].
  - simpl. by apply Split_whole.
  - change (String.concat (String sep EmptyString) (x :: y :: rest))
      with (x +:+ String sep (String.concat (String sep EmptyString) (y :: rest))).
    rewrite Split_app by done. by rewrite IH.
Qed.

Lemma hasByte_dropBytes (c : ascii) (n : nat) : ∀ s,
  hasByte c s = false → hasByte c (dropBytes n s) = false.
Proof.
  induction n as [|n IH]; intros s Hs; [done|].
  destruct s as [|c' rest]; [done|]. simpl in *.
  apply orb_false_iff in Hs as [_ Hrest]. by apply IH.
Qed.

Lemma firstBranchLine_no_sep (c : ascii) (lines : list string) :
  Forall (λ l, hasByte c l = false) lines →
  hasByte c (firstBranchLine lines) = false.
Proof.
  induction lines as [|line rest IH]; intros Hlines; [done|]. simpl.
  apply Forall_cons in Hlines as [Hline Hrest].
  destruct (strings_HasPrefix line (BRANCH_PREFIX +:+ "=")); [|by apply IH].
  unfold strings_TrimPrefix.
  destruct (strings_HasPrefix line (BRANCH_PREFIX +:+ "=")); [|done].
  by apply hasByte_dropBytes.
Qed.

(** X5: the branch read off a message never contains a line break,
    whatever the message. *)
Theorem findBranchTag_is_one_line (message : string) :
  hasByte "010" (findBranchTag message) = false.
Proof.
  unfold findBranchTag. apply firstBranchLine_no_sep.
  apply Forall_forall. intros piece. apply Split_pieces.
Qed.

Lemma prefix_append (p v : string) : String.prefix p (p +:+ v) = true.
Proof.
  induction p as [|c p IH]; simpl; [by destruct v|].
  destruct (ascii_dec c c); [exact IH|done].
Qed.

Lemma dropBytes_append (p v : string) : dropBytes (String.length p) (p +:+ v) = v.
Proof. induction p as [|c p IH]; simpl; [by destruct v|exact IH]. Qed.

Lemma firstBranchLine_first (before : list string) : ∀ v after,
  Forall (λ l, strings_HasPrefix l "PR_BRANCH=" = false) before →
  firstBranchLine (before ++ ("PR_BRANCH=" +:+ v) :: after) = v.
Proof.
  induction before as [|line rest IH]; intros v after Hbefore.
  - change (firstBranchLine ([] ++ ("PR_BRANCH=" +:+ v) :: after))
      with (if strings_HasPrefix ("PR_BRANCH=" +:+ v) "PR_BRANCH="
            then strings_TrimPrefix ("PR_BRANCH=" +:+ v) "PR_BRANCH="
            else firstBranchLine after).
    unfold strings_TrimPrefix, strings_HasPrefix.
    rewrite prefix_append. apply dropBytes_append.
  - apply Forall_cons in Hbefore as [Hline Hrest].
    change (firstBranchLine ((line :: rest) ++ ("PR_BRANCH=" +:+ v) :: after))
      with (if strings_HasPrefix line "PR_BRANCH="
            then strings_TrimPrefix line "PR_BRANCH="
            else firstBranchLine (rest ++ ("PR_BRANCH=" +:+ v) :: after)).
    rewrite Hline. by apply IH.
Qed.

(** X6: the first marker line decides.  For a message without white
    space around it, made of lines of which none before the first
    [PR_BRANCH=v] starts with [PR_BRANCH=], the branch is [v], whatever
    lines follow, other markers among them; an empty [v] reads as no
    branch. *)
Theorem findBranchTag_first_marker_wins
    (before after : list string) (v message : string) :
  message = String.concat newline (before ++ ("PR_BRANCH=" +:+ v) :: after) →
  strings_TrimSpace message = message →
  Forall (λ l, hasByte "010" l = false) (before ++ ("PR_BRANCH=" +:+ v) :: after) →
  Forall (λ l, strings_HasPrefix l "PR_BRANCH=" = false) before →
  findBranchTag message = v.
Proof.
  intros -> Htrim Hlines Hbefore. unfold findBranchTag. rewrite Htrim.
  unfold newline. rewrite Split_concat; [|by destruct before|done].
  by apply firstBranchLine_first.
Qed.

(** X7: every tag name the program makes starts with the reaper's
    prefix, and the ref can be read back from it: tag names of different
    refs differ. *)
Theorem tagName_prefixed_and_readable (h : head) :
  strings_HasPrefix (tagName h) BRANCH_PREFIX = true
  ∧ strings_TrimPrefix (tagName h) "PR_BRANCH/" = head_ref h.
Proof.
  unfold tagName, BRANCH_PREFIX, strings_TrimPrefix, strings_HasPrefix.
  change ("PR_BRANCH" +:+ "/" +:+ head_ref h) with ("PR_BRANCH/" +:+ head_ref h).
  rewrite (prefix_append "PR_BRANCH/" (head_ref h)).
  split; [|apply (dropBytes_append "PR_BRANCH/")].
  change ("PR_BRANCH/" +:+ head_ref h) with ("PR_BRANCH" +:+ ("/" +:+ head_ref h)).
  apply prefix_append.
Qed.

(** X8: [findBranchTags] rewrites the branch of each commit from its
    message and nothing else, so a second pass changes nothing, and the
    refs [findTipsOfPrs] then returns are the markers of the messages of
    the commits that are not merges. *)
Theorem findBranchTags_idempotent (commits : list commit) :
  findBranchTags (findBranchTags commits) = findBranchTags commits
  ∧ sha <$> findBranchTags commits = sha <$> commits
  ∧ isMerge <$> findBranchTags commits = isMerge <$> commits
  ∧ ∃ tips, findTipsOfPrs (findBranchTags commits) = Some tips ∧
            head_ref <$> tips
            = (λ c, findBranchTag (message c))
                <$> filter (λ c, isMerge c = false ∧ findBranchTag (message c) ≠ "")
                           commits.
Proof.
  unfold findBranchTags. split; [|split; [|split]].
  - rewrite <- list_fmap_compose. by apply list_fmap_ext.
  - rewrite <- list_fmap_compose. by apply list_fmap_ext.
  - rewrite <- list_fmap_compose. by apply list_fmap_ext.
  - eexists. split; [apply findTipsOfPrs_scan|]. rewrite scanTips_refs.
    induction commits as [|c rest IH]; [done|]. rewrite fmap_cons.
    destruct (decide (isMerge c = false ∧ findBranchTag (message c) ≠ "")) as [Hc|Hc].
    + rewrite (filter_cons_True _ c) by done.
      rewrite filter_cons_True by done. rewrite !fmap_cons. by rewrite IH.
    + rewrite (filter_cons_False _ c) by done.
      by rewrite filter_cons_False by done.
Qed.

(** * More on the publisher, the reaper and the enumerator *)

Section More.
Context {U : UnicodeTables} {G : Type} {B : Backend G}.

(** X9: for a ref of ASCII bytes only, [shouldIgnoreRef] holds exactly
    when the ref is empty, [null] or [nil] up to the case of its
    letters; every other such ref is published. *)
Theorem shouldIgnoreRef_exact (ref : string) :
  allASCII ref = true → (shouldIgnoreRef ref = true ↔ ignorable ref).
Proof.
  intros HA. split; [|apply ignorable_ignored].
  unfold shouldIgnoreRef, strings_ToLower, ignorable, equalFoldASCII, ignore.
  rewrite HA. intros Hin. apply bool_decide_eq_true in Hin.
  rewrite !elem_of_union, !elem_of_singleton in Hin.
  destruct Hin as [[Heq|Heq]|Heq]; rewrite Heq; simpl; tauto.
Qed.

(** *** The publisher reaches every head it should *)

Lemma pushed_after mk (heads : list head) (s : state G) (id : string) :
  id ∈ pushed (foldl (publish1 mk) s (survivors (pushed s) heads))
  ↔ id ∈ pushed s
    ∨ ∃ h, h ∈ heads ∧ head_sha h = id ∧ shouldIgnoreRef (head_ref h) = false.
Proof.
  rewrite publish_pushed. split.
  - intros Hin. apply elem_of_marked in Hin as [Hin|(h & Hh & Heq)]; [by left|].
    right. apply survivors_sound in Hh as (? & ? & _). by exists h.
  - intros [Hin|(h & Hh & Heq & Hig)].
    + apply elem_of_marked. by left.
    + rewrite <- Heq. by apply survivors_marks.
Qed.

Lemma published_once mk (heads : list head) (s : state G) (id : string) :
  (∀ h, publishes id (mk h) = String.eqb (head_sha h) id) →
  id ∉ pushed s →
  (∃ h, h ∈ heads ∧ head_sha h = id ∧ shouldIgnoreRef (head_ref h) = false) →
  length (filter (λ m, publishes id m = true) (mk <$> survivors (pushed s) heads)) = 1.
Proof.
  intros Hmk Hfresh (h & Hh & Heq & Hig).
  rewrite publishes_count by done.
  pose proof (once_in_NoDup head_sha id _ (survivors_NoDup heads (pushed s))) as Hle.
  assert (Hin : id ∈ marked (pushed s) (survivors (pushed s) heads))
    by (rewrite <- Heq; by apply survivors_marks).
  apply elem_of_marked in Hin as [Hin|(h' & Hh' & Heq')]; [done|].
  assert (Hf : h' ∈ filter (λ h, head_sha h = id) (survivors (pushed s) heads))
    by (by apply list_elem_of_filter).
  destruct (filter _ _) as [|x l]; [by apply elem_of_nil in Hf|].
  simpl in *. lia.
Qed.

(** X10: after the publisher has gone over a list of heads, [pushed]
    holds what it held before and the commits of the heads whose ref is
    not ignorable, and nothing else; this is so in live mode and in
    dry-run mode, whatever the backend answered. *)
Theorem publisher_marks_exactly_the_usable_heads
    (heads : list head) (s : state G) (id : string) :
  (id ∈ pushed (final (pushBranches heads s))
   ↔ id ∈ pushed s
     ∨ ∃ h, h ∈ heads ∧ head_sha h = id ∧ shouldIgnoreRef (head_ref h) = false)
  ∧ (id ∈ pushed (final (tagBranches heads s))
     ↔ id ∈ pushed s
       ∨ ∃ h, h ∈ heads ∧ head_sha h = id ∧ shouldIgnoreRef (head_ref h) = false).
Proof.
  rewrite pushBranches_run, tagBranches_run. simpl.
  split; apply pushed_after.
Qed.

(** X11: no usable commit is left out.  When some head of the list has a
    ref that is not ignorable and a commit that is not yet in [pushed],
    the publisher runs exactly one push (in live mode) or one tag creation
    (in dry-run mode) for that commit. *)
Theorem publisher_publishes_fresh_commit_once
    (heads : list head) (s : state G) (id : string) :
  id ∉ pushed s →
  (∃ h, h ∈ heads ∧ head_sha h = id ∧ shouldIgnoreRef (head_ref h) = false) →
  (∃ new, mutations (trace (final (pushBranches heads s))) = mutations (trace s) ++ new
          ∧ length (filter (λ m, publishes id m = true) new) = 1)
  ∧ (∃ new, mutations (trace (final (tagBranches heads s))) = mutations (trace s) ++ new
            ∧ length (filter (λ m, publishes id m = true) new) = 1).
Proof.
  intros Hfresh Hhead. rewrite pushBranches_run, tagBranches_run. simpl.
  rewrite !publish_mutations. split; eexists; (split; [done|]);
    by apply published_once.
Qed.

(** *** What a whole run does and never does *)

Lemma main_mutations_detail fuel (dry : bool) (w : G) :
  ∃ heads tags,
    mutations (trace (final (main fuel dry (start w))))
    = ((if dry then tagCommand else pushCommand) <$> survivors ∅ heads)
      ++ (GitTagDelete <$> tags)
    ∧ Forall (λ tag, strings_HasPrefix tag "PR_BRANCH" = true
                     ∧ tag ∉ (if dry then tagName <$> survivors ∅ heads else [])) tags.
Proof.
  rewrite main_run.
  destruct (quiet_findCommitPaths fuel "main" (start w)) as (_ & Hp & Ht).
  destruct (findCommitPaths fuel "main" (start w)) as [paths s1|why s1];
    simpl in Hp, Ht.
  - exists (allHeads paths). rewrite Hp. rewrite removeStaleTags_run. simpl.
    set (s2 := foldl _ s1 _).
    destruct (ok (ask (world s2) GitTagList)); simpl.
    + eexists. split.
      * rewrite delete_mutations. unfold emit; simpl.
        rewrite mutations_app. simpl. rewrite app_nil_r.
        unfold s2. rewrite publish_mutations, Ht. done.
      * apply Forall_forall. intros tag Hin.
        apply staleTags_spec in Hin as (_ & Hprefix & Hactive). done.
    + exists []. split; [|constructor]. unfold emit; simpl.
      rewrite !mutations_app. simpl. rewrite !app_nil_r.
      unfold s2. rewrite publish_mutations, Ht. done.
  - exists [], []. simpl. rewrite Ht. by split; [|constructor].
Qed.

(** X12: a dry run never pushes, and a live run never creates a tag. *)
Theorem main_dry_never_pushes_live_never_tags
    (fuel : nat) (w : G) (id x : string) :
  (GitPush id x ∉ mutations (trace (final (main fuel true (start w)))))
  ∧ (GitTag x id ∉ mutations (trace (final (main fuel false (start w))))).
Proof.
  split.
  - destruct (main_mutations_detail fuel true w) as (heads & tags & -> & _).
    intros Hin. apply elem_of_app in Hin as [Hin|Hin];
      by apply list_elem_of_fmap in Hin as (? & ? & _).
  - destruct (main_mutations_detail fuel false w) as (heads & tags & -> & _).
    intros Hin. apply elem_of_app in Hin as [Hin|Hin];
      by apply list_elem_of_fmap in Hin as (? & ? & _).
Qed.

(** X13: no run, live or dry, deletes a tag whose name does not start
    with [PR_BRANCH]. *)
Theorem main_deletes_only_prefixed_tags
    (fuel : nat) (dry : bool) (w : G) (tag : string) :
  GitTagDelete tag ∈ mutations (trace (final (main fuel dry (start w)))) →
  strings_HasPrefix tag "PR_BRANCH" = true.
Proof.
  destruct (main_mutations_detail fuel dry w) as (heads & tags & -> & Htags).
  intros Hin. apply elem_of_app in Hin as [Hin|Hin].
  - apply list_elem_of_fmap in Hin as (h & Heq & _). by destruct dry.
  - apply list_elem_of_fmap in Hin as (tag' & [= <-] & Hin).
    rewrite Forall_forall in Htags. by apply Htags.
Qed.

(** X14: a dry run never deletes a tag it has just created or
    overwritten. *)
Theorem main_dry_keeps_its_own_tags (fuel : nat) (w : G) (name id : string) :
  GitTag name id ∈ mutations (trace (final (main fuel true (start w)))) →
  GitTagDelete name ∉ mutations (trace (final (main fuel true (start w)))).
Proof.
  destruct (main_mutations_detail fuel true w) as (heads & tags & -> & Htags).
  intros Htag Hdel.
  apply elem_of_app in Htag as [Htag|Htag];
    [|by apply list_elem_of_fmap in Htag as (? & ? & _)].
  apply list_elem_of_fmap in Htag as (h & Heq & Hh). injection Heq as -> _.
  apply elem_of_app in Hdel as [Hdel|Hdel];
    [by apply list_elem_of_fmap in Hdel as (? & ? & _)|].
  apply list_elem_of_fmap in Hdel as (tag' & [= <-] & Hin).
  rewrite Forall_forall in Htags. destruct (Htags _ Hin) as [_ Hactive].
  apply Hactive. apply list_elem_of_fmap. by exists h.
Qed.

(** X15: when the tags cannot be listed, the process exits with a fatal
    error after every surviving head has been published: the listing
    comes last. *)
Theorem main_listing_failure_comes_after_publishing
    (fuel : nat) (dry : bool) (w : G) (paths : list (list commit)) (s1 : state G) :
  findCommitPaths fuel "main" (start w) = Done paths s1 →
  ok (ask (world (foldl (publish1 (if dry then tagCommand else pushCommand)) s1
                        (survivors ∅ (allHeads paths)))) GitTagList) = false →
  ∃ s', main fuel dry (start w) = Stopped ExitFatal s' ∧
        mutations (trace s')
        = (if dry then tagCommand else pushCommand) <$> survivors ∅ (allHeads paths).
Proof.
  intros Hpaths Hfail.
  destruct (quiet_findCommitPaths fuel "main" (start w)) as (_ & Hp & Ht).
  rewrite Hpaths in Hp, Ht. simpl in Hp, Ht.
  rewrite main_run, Hpaths. simpl. rewrite Hp.
  rewrite removeStaleTags_run. simpl. rewrite Hfail.
  eexists. split; [done|]. unfold emit; simpl.
  rewrite !mutations_app. simpl. rewrite !app_nil_r.
  by rewrite publish_mutations, Ht.
Qed.

(** X16: an empty tag listing is one empty line, which is no candidate:
    nothing is deleted and the repository is left as it is. *)
Theorem removeStaleTags_empty_listing (active : list string) (s : state G) :
  ok (ask (world s) GitTagList) = true →
  strings_TrimSpace (stdout (ask (world s) GitTagList)) = "" →
  ∃ s', removeStaleTags active s = Done tt s' ∧
        mutations (trace s') = mutations (trace s) ∧ world s' = world s.
Proof.
  intros Hok Hblank. rewrite removeStaleTags_run. simpl. rewrite Hok.
  assert (Hstale : staleTags active (listedTags (ask (world s) GitTagList)) = []).
  { unfold listedTags. rewrite Hblank. unfold staleTags.
    change (strings_Split "" "010") with [EmptyString].
    by rewrite filter_cons_False by (by intros [? _]). }
  rewrite Hstale. simpl. eexists. split; [done|].
  unfold emit; simpl. rewrite mutations_app. simpl. by rewrite app_nil_r.
Qed.
End More.

(** * More on the enumerator *)

Section MoreReads.
Context {U : UnicodeTables} {G : Type} {B : Backend G}.

Lemma getSha_run ref (s : state G) :
  getSha ref s
  = let s1 := emit (RunQuery (GitShow "%H" ref) (ask (world s) (GitShow "%H" ref))) s in
    match shaOf (world s) ref with
    | Some id => Done id s1
    | None => Stopped ExitFatal (emit (Fatalf "Error running get sha err: %v") s1)
    end.
Proof.
  unfold getSha, shaOf, bind, runQuery, ret, fatalf. simpl.
  by destruct (ok (ask (world s) (GitShow "%H" ref))).
Qed.

Lemma getParents_run ref (s : state G) :
  getParents ref s
  = let s1 := emit (RunQuery (GitShow "%P" ref) (ask (world s) (GitShow "%P" ref))) s in
    match parentsOf (world s) ref with
    | Some parents => Done parents s1
    | None => Stopped ExitFatal (emit (Fatalf "Error running get parents err: %v") s1)
    end.
Proof.
  unfold getParents, parentsOf, bind, runQuery, ret, fatalf. simpl.
  by destruct (ok (ask (world s) (GitShow "%P" ref))).
Qed.

Lemma makeCommit_run id (s : state G) c :
  commitOf (world s) id = Some c →
  ∃ s', makeCommit id s = Done c s' ∧ world s' = world s.
Proof.
  unfold commitOf, makeCommit. intros Hc.
  unfold bind at 1. unfold getMessage, bind at 1, runQuery. simpl.
  destruct (ok (ask (world s) (GitShow "%B" id))); [|done].
  unfold ret at 1. unfold bind. rewrite getParents_run. simpl.
  destruct (parentsOf (world s) id) as [parents|]; [|done].
  injection Hc as <-. by eexists.
Qed.

(** X17: enumerating the paths only reads.  However it ends, the
    repository and [pushed] are what they were and no mutation has been
    run. *)
Theorem findCommitPaths_only_reads (fuel : nat) (branch : string) (s : state G) :
  world (final (findCommitPaths fuel branch s)) = world s
  ∧ pushed (final (findCommitPaths fuel branch s)) = pushed s
  ∧ mutations (trace (final (findCommitPaths fuel branch s))) = mutations (trace s).
Proof. apply quiet_findCommitPaths. Qed.

(** X18: when [HEAD] and the branch are the same commit, there is
    exactly one path, the empty one, found after the two reads that
    resolve them and no other. *)
Theorem findCommitPaths_same_commit
    (fuel : nat) (branch : string) (s : state G) (id : string) :
  shaOf (world s) "HEAD" = Some id → shaOf (world s) branch = Some id →
  ∃ s', findCommitPaths (S fuel) branch s = Done [[]] s' ∧
        trace s' = trace s ++ [RunQuery (GitShow "%H" "HEAD")
                                        (ask (world s) (GitShow "%H" "HEAD"));
                               RunQuery (GitShow "%H" branch)
                                        (ask (world s) (GitShow "%H" branch))].
Proof.
  intros Hsource Htarget. unfold findCommitPaths.
  unfold bind at 1. rewrite getSha_run, Hsource. simpl.
  unfold bind at 1. rewrite getSha_run. simpl. rewrite Htarget.
  unfold bind. rewrite String.eqb_refl. simpl.
  eexists. split; [done|]. simpl. by rewrite <- app_assoc.
Qed.

Lemma Split_blank (x : string) (sep : ascii) :
  strings_Split x sep = [EmptyString] ↔ x = EmptyString.
Proof.
  split; [|by intros ->]. destruct x as [|c rest]; [done|]. simpl.
  destruct (Ascii.eqb c sep).
  - intros [= Hrest]. by apply Split_not_nil in Hrest.
  - by destruct (strings_Split rest sep).
Qed.

(** X19: [getParents] never returns an empty list.  For a root commit,
    whose parent line is blank, it returns one parent, the empty string,
    and for no other commit. *)
Theorem getParents_never_empty
    (ref : string) (s : state G) (parents : list string) (s' : state G) :
  getParents ref s = Done parents s' →
  parents ≠ []
  ∧ (parents = [EmptyString]
     ↔ strings_TrimSpace (stdout (ask (world s) (GitShow "%P" ref))) = EmptyString).
Proof.
  intros Hrun. apply getParents_Done in Hrun. unfold parentsOf in Hrun.
  destruct (ok (ask (world s) (GitShow "%P" ref))); [|done].
  injection Hrun as <-. split; [apply Split_not_nil|apply Split_blank].
Qed.

(** X20: a root commit does not end the search.  When the traversal
    comes to a commit that is not the target and whose parent list is the
    one empty string, it goes on to the empty ref; when the backend cannot
    show that ref, the process exits with a fatal error. *)
Theorem traversePaths_root_goes_to_empty_ref
    (fuel : nat) (source target : string) (path : list commit)
    (paths : list (list commit)) (s : state G) :
  source ≠ target → target ≠ EmptyString →
  parentsOf (world s) source = Some [EmptyString] →
  ok (ask (world s) (GitShow "%B" source)) = true →
  ok (ask (world s) (GitShow "%P" EmptyString)) = false →
  ∃ s', traversePaths (S (S fuel)) source target path paths s = Stopped ExitFatal s'
        ∧ RunQuery (GitShow "%P" EmptyString) (ask (world s) (GitShow "%P" EmptyString))
            ∈ trace s'.
Proof.
  intros Hne Htarget Hparents Hmsg Hempty.
  assert (Hc : ∃ c, commitOf (world s) source = Some c).
  { unfold commitOf. rewrite Hmsg, Hparents. by eexists. }
  destruct Hc as [c Hc].
  change (traversePaths (S (S fuel)) source target path paths s)
    with ((if String.eqb source target then ret (path, paths ++ [path])
           else
             parents <- getParents source ;;
             c <- makeCommit source ;;
             acc <- foldM (λ acc p, traversePaths (S fuel) p target acc.1 acc.2)
                          (path ++ [c], paths) parents ;;
             match acc.1 with
             | [] => panic
             | _ => ret (take (length acc.1 - 1) acc.1, acc.2)
             end) s).
  apply String.eqb_neq in Hne. rewrite Hne.
  unfold bind at 1. rewrite getParents_run, Hparents. simpl.
  set (s1 := emit _ s).
  destruct (makeCommit_run source s1 c Hc) as (s2 & Hmake & Hw2).
  unfold bind at 1. rewrite Hmake.
  unfold bind at 1.
  change (foldM (λ acc p, traversePaths (S fuel) p target acc.1 acc.2)
                (path ++ [c], paths) [EmptyString] s2)
    with ((b' <- (if String.eqb EmptyString target
                  then ret (path ++ [c], paths ++ [path ++ [c]])
                  else
                    parents <- getParents EmptyString ;;
                    c' <- makeCommit EmptyString ;;
                    acc <- foldM (λ acc p, traversePaths fuel p target acc.1 acc.2)
                                 ((path ++ [c]) ++ [c'], paths) parents ;;
                    match acc.1 with
                    | [] => panic
                    | _ => ret (take (length acc.1 - 1) acc.1, acc.2)
                    end) ;;
           foldM (λ acc p, traversePaths (S fuel) p target acc.1 acc.2) b' []) s2).
  destruct target as [|t0 target]; [done|].
  unfold bind at 1. unfold bind at 1.
  rewrite getParents_run. unfold parentsOf. rewrite Hw2. simpl. rewrite Hempty.
  eexists. split; [done|]. unfold emit. simpl.
  apply elem_of_app. left. apply elem_of_app. right. by left.
Qed.

(** *** The enumeration is exhaustive *)

Lemma foldM_traverse_grows fuel target (ps : list string) :
  ∀ acc0 (s0 : state G) acc1 s1,
    foldM (λ acc p, traversePaths fuel p target acc.1 acc.2) acc0 ps s0 = Done acc1 s1 →
    acc1.1 = acc0.1 ∧ world s1 = world s0 ∧ ∀ q, q ∈ acc0.2 → q ∈ acc1.2.
Proof.
  induction ps as [|p ps IH]; intros acc0 s0 acc1 s1 Hfold; simpl in Hfold.
  - unfold ret in Hfold. by injection Hfold as <- <-.
  - apply bind_Done in Hfold as (mid & sm & Hfirst & Hrest).
    pose proof (quiet_world _ _ _ _ (quiet_traversePaths _ _ _ _ _) Hfirst) as Hwm.
    apply traversePaths_sound in Hfirst as (Hpath & new & Hnew & _).
    apply IH in Hrest as (Hpath2 & Hw2 & Hmono).
    split; [congruence|]. split; [congruence|].
    intros q Hq. apply Hmono. rewrite Hnew. apply elem_of_app. by left.
Qed.

Lemma traversePaths_complete fuel : ∀ source target path paths (s : state G) acc s' rest,
  traversePaths fuel source target path paths s = Done acc s' →
  linked (world s) source target rest →
  path ++ rest ∈ acc.2.
Proof.
  induction fuel as [|fuel IH];
    intros source target path paths s acc s' rest Hrun Hlinked;
    simpl in Hrun; [done|].
  destruct (String.eqb_spec source target) as [->|Hne].
  - unfold ret in Hrun. injection Hrun as <- _. simpl.
    destruct rest as [|c rest]; [|by destruct Hlinked as (Hne & _)].
    rewrite app_nil_r. apply elem_of_app. right. by left.
  - destruct rest as [|c rest]; [done|].
    destruct Hlinked as (_ & Hc & parents & next & Hparents & Hnext & Hrest).
    apply bind_Done in Hrun as (parents' & s1 & Hparents' & Hrun).
    apply bind_Done in Hrun as (c' & s2 & Hc' & Hrun).
    apply bind_Done in Hrun as (acc2 & s3 & Hloop & Hrun).
    pose proof (quiet_world _ _ _ _ (quiet_getParents source) Hparents') as Hw1.
    pose proof (quiet_world _ _ _ _ (quiet_makeCommit source) Hc') as Hw2.
    apply getParents_Done in Hparents'. apply makeCommit_Done in Hc'.
    rewrite Hw1 in Hc', Hw2.
    assert (parents' = parents) as -> by congruence.
    assert (c' = c) as -> by congruence.
    assert (Hinner : ∀ ps acc0 s0 acc1 s1',
      world s0 = world s →
      foldM (λ acc p, traversePaths fuel p target acc.1 acc.2) acc0 ps s0
      = Done acc1 s1' →
      next ∈ ps → acc0.1 ++ rest ∈ acc1.2).
    { clear Hloop Hrun. induction ps as [|p ps IHps];
        intros acc0 s0 acc1 s1' Hw0 Hfold Hin; simpl in Hfold.
      - by apply elem_of_nil in Hin.
      - apply bind_Done in Hfold as (mid & sm & Hfirst & Hfold).
        pose proof (quiet_world _ _ _ _ (quiet_traversePaths _ _ _ _ _) Hfirst) as Hwm.
        pose proof (traversePaths_sound _ _ _ _ _ _ _ _ Hfirst) as (Hpath & _).
        apply elem_of_cons in Hin as [<-|Hin].
        + apply (foldM_traverse_grows _ _ _ _ _ _ _ Hfold).
          apply (IH _ _ _ _ _ _ _ _ Hfirst). by rewrite Hw0.
        + rewrite <- Hpath. apply (IHps _ _ _ _ (eq_trans Hwm Hw0) Hfold Hin). }
    specialize (Hinner parents _ _ _ _ Hw2 Hloop Hnext). simpl in Hinner.
    assert (Hret : ∃ l, acc = (l, acc2.2)).
    { destruct (acc2.1); [done|]. unfold ret in Hrun. injection Hrun as <- _.
      by eexists. }
    destruct Hret as [l ->]. simpl. by rewrite <- app_assoc in Hinner.
Qed.

(** X21: the enumeration is exhaustive and exact.  When
    [findCommitPaths] returns, its paths are the linked paths from the
    commit of [HEAD] to the commit of the branch, all of them and nothing
    else. *)
Theorem findCommitPaths_finds_every_path
    (fuel : nat) (branch : string) (s : state G)
    (paths : list (list commit)) (s' : state G) :
  findCommitPaths fuel branch s = Done paths s' →
  ∃ source target,
    shaOf (world s) "HEAD" = Some source ∧
    shaOf (world s) branch = Some target ∧
    ∀ path, path ∈ paths ↔ linked (world s) source target path.
Proof.
  intros Hrun.
  destruct (findCommitPaths_sound _ _ _ _ _ Hrun)
    as (source & target & Hsource & Htarget & Hsound).
  exists source, target. split; [done|]. split; [done|].
  intros path. split; [apply Hsound|]. intros Hlinked.
  unfold findCommitPaths in Hrun.
  apply bind_Done in Hrun as (source' & s1 & Hsource' & Hrun).
  apply bind_Done in Hrun as (target' & s2 & Htarget' & Hrun).
  apply bind_Done in Hrun as (acc & s3 & Htraverse & Hrun).
  pose proof (quiet_world _ _ _ _ (quiet_getSha _) Hsource') as Hw1.
  pose proof (quiet_world _ _ _ _ (quiet_getSha _) Htarget') as Hw2.
  apply getSha_Done in Hsource'. apply getSha_Done in Htarget'.
  rewrite Hw1 in Htarget'.
  assert (source' = source) as -> by congruence.
  assert (target' = target) as -> by congruence.
  unfold ret in Hrun. injection Hrun as <- _.
  apply (traversePaths_complete _ _ _ [] _ _ _ _ _ Htraverse).
  by rewrite Hw2, Hw1.
Qed.

(** *** Linear history *)

Lemma bind_run {X Y} (m : M G X) (k : X → M G Y) s x s1 :
  m s = Done x s1 → (x <- m ;; k x) s = k x s1.
Proof. unfold bind. by intros ->. Qed.

Lemma traversePaths_lineage (commits : list commit) :
  ∀ source target path paths (s : state G),
    lineage (world s) source target commits →
    ∃ s', traversePaths (S (length commits)) source target path paths s
          = Done (path, paths ++ [path ++ commits]) s'
          ∧ world s' = world s.
Proof.
  induction commits as [|c rest IH]; intros source target path paths s Hline.
  - simpl in Hline. subst target. simpl. rewrite String.eqb_refl.
    rewrite app_nil_r. by eexists.
  - destruct Hline as (Hne & Hc & next & Hparents & Hrest).
    change (traversePaths (S (length (c :: rest))) source target path paths s)
      with ((if String.eqb source target then ret (path, paths ++ [path])
             else
               parents <- getParents source ;;
               c <- makeCommit source ;;
               acc <- foldM (λ acc p, traversePaths (S (length rest)) p target acc.1 acc.2)
                            (path ++ [c], paths) parents ;;
               match acc.1 with
               | [] => panic
               | _ => ret (take (length acc.1 - 1) acc.1, acc.2)
               end) s).
    apply String.eqb_neq in Hne. rewrite Hne.
    remember (traversePaths (S (length rest))) as deeper eqn:Hdeeper.
    unfold bind at 1. rewrite getParents_run, Hparents. simpl.
    set (s1 := emit _ s).
    destruct (makeCommit_run source s1 c Hc) as (s2 & Hmake & Hw2).
    unfold bind at 1. rewrite Hmake.
    destruct (IH next target (path ++ [c]) paths s2) as (s3 & Hnext & Hw3).
    { by rewrite Hw2. }
    unfold bind at 1.
    change (foldM (λ acc p, deeper p target acc.1 acc.2)
                  (path ++ [c], paths) [next] s2)
      with ((b' <- deeper next target (path ++ [c]) paths ;; ret b') s2).
    unfold bind at 1. rewrite Hnext. unfold ret at 1.
    exists s3. split; [|by rewrite Hw3, Hw2].
    assert (Htake : take (length (path ++ [c]) - 1) (path ++ [c]) = path).
    { rewrite length_app. simpl.
      replace (length path + 1 - 1) with (length path) by lia.
      by rewrite take_app_length. }
    simpl.
    transitivity (ret (take (length (path ++ [c]) - 1) (path ++ [c]),
                       paths ++ [(path ++ [c]) ++ rest]) s3); [by destruct path|].
    unfold ret. rewrite Htake. by rewrite <- app_assoc.
Qed.

(** X22: on a linear history the enumeration ends and finds the one
    path.  When every commit from the commit of [HEAD] down to the branch
    has one parent, a recursion depth of one more than the number of
    commits is enough, and [findCommitPaths] returns exactly that chain of
    commits, [HEAD]'s first. *)
Theorem findCommitPaths_linear_history
    (branch : string) (s : state G) (source target : string) (commits : list commit) :
  shaOf (world s) "HEAD" = Some source →
  shaOf (world s) branch = Some target →
  lineage (world s) source target commits →
  ∃ s', findCommitPaths (S (length commits)) branch s = Done [commits] s'
        ∧ world s' = world s.
Proof.
  intros Hsource Htarget Hline. unfold findCommitPaths.
  unfold bind at 1. rewrite getSha_run, Hsource. simpl.
  unfold bind at 1. rewrite getSha_run. simpl. rewrite Htarget.
  set (s2 := emit _ (emit _ s)).
  destruct (traversePaths_lineage commits source target [] [] s2 Hline)
    as (s3 & Hrun & Hw).
  exists s3. split; [|done]. by rewrite (bind_run _ _ _ _ _ Hrun).
Qed.
End MoreReads.

(** * The program on the in-memory repository *)

#[local] Existing Instance plain_tables.

Ltac find_elem :=
  repeat first [ apply list_elem_of_here | apply list_elem_of_further ].

(** A repository that refuses every mutation: the dry run still tries
    the tag and both deletions. *)
Example frozen_run_goes_on :
  match main 10 true (start frozen_repo) with
  | Done _ s =>
      mutations (trace s)
      = [GitTag "PR_BRANCH/one" "a"; GitTagDelete "PR_BRANCH/old";
         GitTagDelete "PR_BRANCHES"]
      ∧ world s = frozen_repo
  | Stopped _ _ => False
  end.
Proof. vm_compute. done. Qed.

(** C1 fails as stated: a live run on [chain_repo] deletes the tag
    [PR_BRANCH/old], and the tags of the repository are not what they
    were. *)
Lemma C1_counterexample :
  GitTagDelete "PR_BRANCH/old"
    ∈ mutations (trace (final (main 10 false (start chain_repo))))
  ∧ repo_tags (world (final (main 10 false (start chain_repo))))
    ≠ repo_tags chain_repo.
Proof. split; [vm_compute; find_elem|vm_compute; discriminate]. Qed.

Lemma C1_reaper_runs_in_both_modes_witness :
  ∃ s', main 10 false (start chain_repo) = Done tt s' ∧
        GitTagDelete "PR_BRANCH/old" ∈ mutations (trace s').
Proof.
  destruct (C1_reaper_runs_in_both_modes 10 chain_repo
              [ [ {| sha := "a"; message := ""; psBranch := ""; isMerge := false |};
                  {| sha := "b"; message := ""; psBranch := "one"; isMerge := false |} ] ]
              (final (findCommitPaths 10 "main" (start chain_repo))))
    as [_ Hlive]; [vm_compute; reflexivity|].
  destruct (Hlive _ eq_refl) as (s' & deleted & Hrun & Hmut & Hdeleted);
    [vm_compute; reflexivity|].
  exists s'. split; [exact Hrun|]. rewrite Hmut.
  apply elem_of_app. right. apply list_elem_of_fmap.
  exists "PR_BRANCH/old". split; [reflexivity|].
  apply Hdeleted. split; [vm_compute; find_elem|reflexivity].
Defined.



(** C4 fails as stated: on [chain_repo], where [HEAD] is [a] and [main]
    is [c], the one path is [a; b]: the source commit is on it. *)
Lemma C4_counterexample :
  shaOf chain_repo "HEAD" = Some "a" ∧
  ∃ s', findCommitPaths 10 "main" (start chain_repo)
        = Done [ [ {| sha := "a"; message := ""; psBranch := ""; isMerge := false |};
                   {| sha := "b"; message := ""; psBranch := "one"; isMerge := false |} ] ]
               s'.
Proof. split; [by vm_compute|]. eexists. vm_compute. reflexivity. Qed.

Lemma C4_paths_start_at_source_stop_before_target_witness :
  ∃ source target,
    shaOf (world (start diamond_repo)) "HEAD" = Some source ∧
    shaOf (world (start diamond_repo)) "main" = Some target ∧
    ∀ path, path ∈ diamond_paths →
      linked (world (start diamond_repo)) source target path
      ∧ (∀ c, c ∈ path → sha c ≠ target)
      ∧ (source ≠ target → ∃ c, path !! 0 = Some c ∧ sha c = source)
      ∧ (source = target → path = [])
      ∧ (∀ c, last path = Some c →
              ∃ parents, parentsOf (world (start diamond_repo)) (sha c) = Some parents
                         ∧ target ∈ parents).
Proof.
  apply (C4_paths_start_at_source_stop_before_target 10 "main" (start diamond_repo)
           diamond_paths (final (findCommitPaths 10 "main" (start diamond_repo)))).
  vm_compute. reflexivity.
Defined.

Lemma C8_ignorable_head_never_published_witness :
  pushBranches ([] ++ {| head_sha := "a"; head_ref := "NuLL" |}
                   :: [ {| head_sha := "a"; head_ref := "one" |} ])
               (start chain_repo)
  = pushBranches ([] ++ [ {| head_sha := "a"; head_ref := "one" |} ]) (start chain_repo)
  ∧ tagBranches ([] ++ {| head_sha := "a"; head_ref := "NuLL" |}
                    :: [ {| head_sha := "a"; head_ref := "one" |} ])
                (start chain_repo)
    = tagBranches ([] ++ [ {| head_sha := "a"; head_ref := "one" |} ]) (start chain_repo).
Proof.
  apply (C8_ignorable_head_never_published {| head_sha := "a"; head_ref := "NuLL" |}).
  right. left. reflexivity.
Defined.

(** C9 fails as stated where it has the failure logged: on
    [frozen_repo] the tag creation and both deletions of a dry run fail,
    and all the program writes is the three command lines, the same as on
    [chain_repo], where they succeed. *)
Lemma C9_counterexample :
  (∃ m r, RunMutation m r ∈ trace (final (main 10 true (start frozen_repo)))
          ∧ ok r = false)
  ∧ written (trace (final (main 10 true (start frozen_repo))))
    = [Println (GitTag "PR_BRANCH/one" "a"); Println (GitTagDelete "PR_BRANCH/old");
       Println (GitTagDelete "PR_BRANCHES")]
  ∧ written (trace (final (main 10 true (start chain_repo))))
    = written (trace (final (main 10 true (start frozen_repo)))).
Proof.
  split; [|by vm_compute].
  exists (GitTag "PR_BRANCH/one" "a"), (failed "error: repository is read-only").
  split; [vm_compute; find_elem|reflexivity].
Qed.

Lemma C9_mutations_best_effort_reads_fatal_witness :
  (∃ s', main 10 true (start frozen_repo) = Done tt s' ∧
         mutations (trace s')
         = [GitTag "PR_BRANCH/one" "a"; GitTagDelete "PR_BRANCH/old";
            GitTagDelete "PR_BRANCHES"] ∧
         written (trace s') = Println <$> mutations (trace s'))
  ∧ (∃ s' t format,
        main 10 true (start no_main_repo) = Stopped ExitFatal s' ∧
        trace s' = t ++ [RunQuery (GitShow "%H" "main") (failed "fatal: bad revision");
                         Fatalf format] ∧
        mutations (trace s') = [] ∧ world s' = no_main_repo).
Proof.
  destruct (C9_mutations_best_effort_reads_fatal (G := repo))
    as (_ & _ & _ & _ & _ & Hrun & _ & Hread).
  split.
  - destruct (Hrun 10 true frozen_repo
                [ [ {| sha := "a"; message := ""; psBranch := ""; isMerge := false |};
                    {| sha := "b"; message := ""; psBranch := "one"; isMerge := false |} ] ]
                (final (findCommitPaths 10 "main" (start frozen_repo)))
                (ask frozen_repo GitTagList))
      as (s' & Hmain & Hmut & Hwritten).
    + vm_compute. reflexivity.
    + vm_compute. reflexivity.
    + reflexivity.
    + exists s'. split; [exact Hmain|]. split; [|exact Hwritten].
      rewrite Hmut. vm_compute. reflexivity.
  - apply Hread; [vm_compute; find_elem|reflexivity].
Defined.


(** ** Further runs on the in-memory repository *)

Lemma findTipsOfPrs_tip_on_path_not_merge_witness :
  ∃ c, c ∈ [ {| sha := "c1"; message := ""; psBranch := ""; isMerge := false |};
             {| sha := "c2"; message := ""; psBranch := "B"; isMerge := false |} ]
       ∧ sha c = head_sha {| head_sha := "c1"; head_ref := "B" |}
       ∧ isMerge c = false.
Proof.
  apply (findTipsOfPrs_tip_on_path_not_merge _ [ {| head_sha := "c1"; head_ref := "B" |} ]).
  - reflexivity.
  - by left.
Defined.

Lemma findTipsOfPrs_drops_open_window_witness :
  findTipsOfPrs
    ([ {| sha := "c1"; message := ""; psBranch := "A"; isMerge := false |} ]
     ++ [ {| sha := "c2"; message := ""; psBranch := ""; isMerge := false |} ])
  = findTipsOfPrs
      [ {| sha := "c1"; message := ""; psBranch := "A"; isMerge := false |} ]
  ∧ findTipsOfPrs
      [ {| sha := "c2"; message := ""; psBranch := ""; isMerge := false |} ]
    = Some [].
Proof.
  apply findTipsOfPrs_drops_open_window.
  constructor; [|constructor]. by intros [?|?].
Defined.

Lemma findTipsOfPrs_cut_at_stopper_witness :
  ∃ tips1 tips2,
    findTipsOfPrs
      ([ {| sha := "c1"; message := ""; psBranch := ""; isMerge := false |} ]
       ++ [ {| sha := "c2"; message := ""; psBranch := "A"; isMerge := false |} ])
    = Some tips1 ∧
    findTipsOfPrs
      [ {| sha := "c3"; message := ""; psBranch := "B"; isMerge := false |} ]
    = Some tips2 ∧
    findTipsOfPrs
      ([ {| sha := "c1"; message := ""; psBranch := ""; isMerge := false |} ]
       ++ {| sha := "c2"; message := ""; psBranch := "A"; isMerge := false |}
       :: [ {| sha := "c3"; message := ""; psBranch := "B"; isMerge := false |} ])
    = Some (tips1 ++ tips2).
Proof.
  apply findTipsOfPrs_cut_at_stopper. by left.
Defined.

Lemma findBranchTag_first_marker_wins_witness :
  findBranchTag
    (String.concat newline (["fix the parser"; ""] ++ ("PR_BRANCH=" +:+ "one")
                                                  :: ["PR_BRANCH=two"]))
  = "one".
Proof.
  apply (findBranchTag_first_marker_wins ["fix the parser"; ""] ["PR_BRANCH=two"] "one").
  - reflexivity.
  - vm_compute. reflexivity.
  - repeat constructor.
  - repeat constructor.
Defined.

Lemma shouldIgnoreRef_exact_witness :
  shouldIgnoreRef "nothing" = true ↔ ignorable "nothing".
Proof. apply shouldIgnoreRef_exact. reflexivity. Defined.

Lemma publisher_publishes_fresh_commit_once_witness :
  (∃ new,
      mutations (trace (final (pushBranches
                                 [ {| head_sha := "a"; head_ref := "null" |};
                                   {| head_sha := "a"; head_ref := "one" |};
                                   {| head_sha := "a"; head_ref := "two" |} ]
                                 (start chain_repo))))
      = mutations (trace (start chain_repo)) ++ new
      ∧ length (filter (λ m, publishes "a" m = true) new) = 1)
  ∧ (∃ new,
        mutations (trace (final (tagBranches
                                   [ {| head_sha := "a"; head_ref := "null" |};
                                     {| head_sha := "a"; head_ref := "one" |};
                                     {| head_sha := "a"; head_ref := "two" |} ]
                                   (start chain_repo))))
        = mutations (trace (start chain_repo)) ++ new
        ∧ length (filter (λ m, publishes "a" m = true) new) = 1).
Proof.
  apply publisher_publishes_fresh_commit_once.
  - apply not_elem_of_empty.
  - exists {| head_sha := "a"; head_ref := "one" |}.
    split; [find_elem|]. split; [reflexivity|]. vm_compute. reflexivity.
Defined.

Lemma main_deletes_only_prefixed_tags_witness :
  strings_HasPrefix "PR_BRANCHES" "PR_BRANCH" = true.
Proof.
  apply (main_deletes_only_prefixed_tags 10 true chain_repo "PR_BRANCHES").
  vm_compute. find_elem.
Defined.

Lemma main_dry_keeps_its_own_tags_witness :
  GitTagDelete "PR_BRANCH/one" ∉ mutations (trace (final (main 10 true (start chain_repo)))).
Proof.
  apply (main_dry_keeps_its_own_tags 10 chain_repo "PR_BRANCH/one" "a").
  vm_compute. find_elem.
Defined.

Lemma main_listing_failure_comes_after_publishing_witness :
  ∃ s', main 10 true (start {| listed_repo := chain_repo |}) = Stopped ExitFatal s' ∧
        mutations (trace s') = [GitTag "PR_BRANCH/one" "a"].
Proof.
  apply (main_listing_failure_comes_after_publishing 10 true
           {| listed_repo := chain_repo |}
           [ [ {| sha := "a"; message := ""; psBranch := ""; isMerge := false |};
               {| sha := "b"; message := ""; psBranch := "one"; isMerge := false |} ] ]
           (final (findCommitPaths 10 "main" (start {| listed_repo := chain_repo |})))).
  - vm_compute. reflexivity.
  - reflexivity.
Defined.

Lemma removeStaleTags_empty_listing_witness :
  ∃ s', removeStaleTags ["PR_BRANCH/one"] (start diamond_repo) = Done tt s' ∧
        mutations (trace s') = mutations (trace (start diamond_repo)) ∧
        world s' = world (start diamond_repo).
Proof.
  apply removeStaleTags_empty_listing; reflexivity.
Defined.

Lemma findCommitPaths_same_commit_witness :
  ∃ s', findCommitPaths 1 "HEAD" (start chain_repo) = Done [[]] s' ∧
        trace s' = trace (start chain_repo)
                   ++ [RunQuery (GitShow "%H" "HEAD")
                                (ask (world (start chain_repo)) (GitShow "%H" "HEAD"));
                       RunQuery (GitShow "%H" "HEAD")
                                (ask (world (start chain_repo)) (GitShow "%H" "HEAD"))].
Proof.
  apply (findCommitPaths_same_commit 0 "HEAD" (start chain_repo) "a"); reflexivity.
Defined.

Lemma getParents_never_empty_witness :
  [EmptyString] ≠ []
  ∧ ([EmptyString] = [EmptyString]
     ↔ strings_TrimSpace (stdout (ask (world (start chain_repo)) (GitShow "%P" "c")))
       = EmptyString).
Proof.
  apply (getParents_never_empty "c" (start chain_repo) [EmptyString]
           (final (getParents "c" (start chain_repo)))).
  vm_compute. reflexivity.
Defined.

Lemma traversePaths_root_goes_to_empty_ref_witness :
  ∃ s', traversePaths 2 "c" "z" [] [] (start detached_repo) = Stopped ExitFatal s'
        ∧ RunQuery (GitShow "%P" EmptyString)
                   (ask (world (start detached_repo)) (GitShow "%P" EmptyString))
            ∈ trace s'.
Proof.
  apply (traversePaths_root_goes_to_empty_ref 0 "c" "z" [] [] (start detached_repo));
    try discriminate; reflexivity.
Defined.

Lemma findCommitPaths_finds_every_path_witness :
  ∃ source target,
    shaOf (world (start diamond_repo)) "HEAD" = Some source ∧
    shaOf (world (start diamond_repo)) "main" = Some target ∧
    ∀ path, path ∈ diamond_paths ↔ linked (world (start diamond_repo)) source target path.
Proof.
  apply (findCommitPaths_finds_every_path 10 "main" (start diamond_repo) diamond_paths
           (final (findCommitPaths 10 "main" (start diamond_repo)))).
  vm_compute. reflexivity.
Defined.

(** On [detached_repo], where [main] is no ancestor of [HEAD], the whole
    run ends in a fatal error at the root, before anything is published. *)
Example detached_run_is_fatal :
  match main 10 false (start detached_repo) with
  | Stopped ExitFatal s => mutations (trace s) = [] ∧ world s = detached_repo
  | _ => False
  end.
Proof. vm_compute. done. Qed.

Lemma findCommitPaths_linear_history_witness :
  ∃ s', findCommitPaths
          (S (length [ {| sha := "a"; message := ""; psBranch := ""; isMerge := false |};
                       {| sha := "b"; message := ""; psBranch := "one"; isMerge := false |} ]))
          "main" (start chain_repo)
        = Done [ [ {| sha := "a"; message := ""; psBranch := ""; isMerge := false |};
                   {| sha := "b"; message := ""; psBranch := "one"; isMerge := false |} ] ]
               s'
        ∧ world s' = world (start chain_repo).
Proof.
  apply (findCommitPaths_linear_history "main" (start chain_repo) "a" "c").
  - reflexivity.
  - reflexivity.
  - simpl. split; [discriminate|]. split; [reflexivity|]. exists "b".
    split; [reflexivity|]. split; [discriminate|]. split; [reflexivity|].
    exists "c". split; reflexivity.
Defined.
